(** * Humphreybot: per-guild music queue and playback orchestration

    A shallow embedding of [main.py].  The module-level dictionary
    [music_queues], the voice clients of the guilds and the messages the
    bot sends are the fields of one explicit [World]; every coroutine of
    the source is a function in a state-and-exception monad over it.

    Each coroutine is run to its end before the next one starts: the
    interleavings that [await] allows between two coroutines, and the
    player thread that delivers completion callbacks, are not part of
    this model.  A callback that the voice client owes is kept in the
    world ([callbacks]) until it is delivered.  The resolver is a function
    of the query.  Python's recursion limit is a field of the world. *)

From stdpp Require Import gmap strings list pretty.

Open Scope Z_scope.
Open Scope string_scope.
Open Scope list_scope.

(** ** Data *)

(** A queued song: the dict [{"url": url, "title": title}] built by [play]. *)
Record Song := mkSong { url : string; title : string }.

(** An info dict as [ytdl.extract_info] returns it; a field is [None] when
    the key is absent.  ["entries"] holds info dicts again. *)
#[warnings="-register-all"]
Inductive Info := mkInfo {
  entries : option (list Info);
  info_url : option string;
  info_webpage_url : option string;
  info_title : option string
}.

(** [discord.FFmpegPCMAudio(audio_url, **FFMPEG_OPTS)]. *)
Inductive AudioSource := FFmpegPCMAudio (audio_url : string).

(** [ctx.author.voice], with its [channel]. *)
Record VoiceState := mkVoiceState { vs_channel : option Z }.

(** The part of [commands.Context] the code reads: [ctx.guild.id] and
    [ctx.author.voice].  [ctx.voice_client] is the voice client of the
    guild and is looked up in the world. *)
Record Context := mkContext { guild_id : Z; author_voice : option VoiceState }.

(** The running player of a voice client, with the context captured by the
    [after_playing] closure given as [after=]. *)
Record Player := mkPlayer {
  pl_source : AudioSource;
  pl_paused : bool;
  pl_after : Context
}.

Record VoiceClient := mkVoiceClient {
  vc_channel : Z;
  vc_connected : bool;
  vc_player : option Player
}.

(** Where [play_next_in_queue] is called from.  The calls are recorded in
    the log as ghost events, so that a property can say how often, and
    from where, [play_next_in_queue] is called. *)
Inductive CallSite :=
| FromPlay           (* play, line 183 *)
| FromRetry          (* play_next_in_queue, line 100 *)
| FromAfterPlaying.  (* after_playing, line 106 *)

(** What the bot does to the outside, in order. *)
Inductive Event :=
| Send (guild : Z) (msg : string)
| Print (msg : string)
| VcConnect (guild channel : Z)
| VcMoveTo (guild channel : Z)
| VcPlay (guild : Z) (source : AudioSource)
| VcStop (guild : Z)
| VcPause (guild : Z)
| VcResume (guild : Z)
| VcDisconnect (guild : Z)
| Call (site : CallSite) (guild : Z).

(** [recursion_limit] is the number of calls of [play_next_in_queue] that
    Python lets one call of it nest ([sys.getrecursionlimit()], less the
    frames that are open when the first call is made); the bot never
    changes it. *)
Record World := mkWorld {
  music_queues : gmap Z (list Song);
  voice_clients : gmap Z VoiceClient;
  callbacks : list (Context * option string);
  log : list Event;
  recursion_limit : nat
}.

Definition set_music_queues (f : gmap Z (list Song) → gmap Z (list Song)) (w : World) : World :=
  mkWorld (f (music_queues w)) (voice_clients w) (callbacks w) (log w) (recursion_limit w).

Definition set_voice_clients (f : gmap Z VoiceClient → gmap Z VoiceClient) (w : World) : World :=
  mkWorld (music_queues w) (f (voice_clients w)) (callbacks w) (log w) (recursion_limit w).

Definition set_callbacks (f : list (Context * option string) → list (Context * option string))
    (w : World) : World :=
  mkWorld (music_queues w) (voice_clients w) (f (callbacks w)) (log w) (recursion_limit w).

Definition emit (e : Event) (w : World) : World :=
  mkWorld (music_queues w) (voice_clients w) (callbacks w) (log w ++ [e]) (recursion_limit w).

(** ** The monad of the coroutines: state, and Python exceptions *)

(** A Python exception: its class and [str(e)], the text that
    [print(f"... {e}")] shows. *)
Record Exn := mkExn { exn_class : string; exn_text : string }.

Inductive Result (A : Type) :=
| Ret (a : A)
| Raise (exn : Exn).
Arguments Ret {A} a.
Arguments Raise {A} exn.

Definition M (A : Type) : Type := World → World * Result A.

#[global] Instance M_ret : MRet M := λ A a w, (w, Ret a).

#[global] Instance M_bind : MBind M := λ A B f m w,
  match m w with
  | (w', Ret a) => f a w'
  | (w', Raise exn) => (w', Raise exn)
  end.

#[global] Instance M_fmap : FMap M := λ A B f m, a ← m; mret (f a).

Definition raise {A} (exn : Exn) : M A := λ w, (w, Raise exn).

Definition modify (f : World → World) : M unit := λ w, (f w, Ret tt).

Definition gets {A} (f : World → A) : M A := λ w, (w, Ret (f w)).

(** [try: body except Exception as e: handler(e)]. *)
Definition try_except {A} (body : M A) (handler : Exn → M A) : M A := λ w,
  match body w with
  | (w', Ret a) => (w', Ret a)
  | (w', Raise exn) => handler exn w'
  end.

(** [await ctx.send(msg)] and [print(msg)]. *)
Definition send (ctx : Context) (msg : string) : M unit :=
  modify (emit (Send (guild_id ctx) msg)).

Definition print (msg : string) : M unit := modify (emit (Print msg)).

(** The messages of [play_next_in_queue] about a song (lines 98 and 114). *)
Definition could_not_play (song : Song) : string :=
  "Could not play **" +:+ title song +:+ "** 😢".

Definition now_playing (song : Song) : string :=
  "🎶 Now playing: **" +:+ title song +:+ "**".

(** ** Queue helpers *)

(** The list stored for a guild, [[]] when the guild has no entry yet. *)
Definition queue_of (guild : Z) (w : World) : list Song :=
  default [] (music_queues w !! guild).

(** [get_guild_queue]: creates the empty list on first reference.  The
    returned list is the one stored in the dict; a later [append] or
    [pop] on it is a write to the dict at [guild]. *)
Definition get_guild_queue (guild : Z) : M (list Song) := λ w,
  match music_queues w !! guild with
  | Some queue => (w, Ret queue)
  | None => (set_music_queues <[guild := []]> w, Ret [])
  end.

(** [queue.append(song)] and [queue.pop(0)] on the list of [guild]. *)
Definition queue_append (guild : Z) (song : Song) : M unit :=
  modify (set_music_queues (λ mq, <[guild := default [] (mq !! guild) ++ [song]]> mq)).

Definition queue_pop0 (guild : Z) : M Song := λ w,
  match queue_of guild w with
  | song :: rest => (set_music_queues <[guild := rest]> w, Ret song)
  | [] => (w, Raise (mkExn "IndexError" "pop from empty list"))
  end.

Definition add_to_queue (guild : Z) (song : Song) : M unit :=
  _ ← get_guild_queue guild;
  queue_append guild song.

(** Lines 86-91 of [play_next_in_queue]: the head of the queue is removed
    and returned, [None] when the queue is empty. *)
Definition dequeue_next (guild : Z) : M (option Song) :=
  queue ← get_guild_queue guild;
  match queue with
  | [] => mret None
  | _ :: _ => song ← queue_pop0 guild; mret (Some song)
  end.

(** ** The voice client

    [discord.VoiceClient] is a collaborator of the bot, not part of it.
    What follows is the behaviour the source is written against: [play]
    refuses a second player, and a player that is stopped (by [stop] or
    by [disconnect]) owes one call of its [after] callback, which the
    player thread makes later. *)

Definition voice_client_of (ctx : Context) : M (option VoiceClient) :=
  gets (λ w, voice_clients w !! guild_id ctx).

Definition is_connected (vc : VoiceClient) : bool := vc_connected vc.

Definition is_playing (vc : VoiceClient) : bool :=
  match vc_player vc with
  | Some p => negb (pl_paused p)
  | None => false
  end.

Definition is_paused (vc : VoiceClient) : bool :=
  match vc_player vc with
  | Some p => pl_paused p
  | None => false
  end.

Definition with_player (p : option Player) (vc : VoiceClient) : VoiceClient :=
  mkVoiceClient (vc_channel vc) (vc_connected vc) p.

(** [await voice_channel.connect()]. *)
Definition vc_connect (ctx : Context) (channel : Z) : M unit :=
  modify (set_voice_clients <[guild_id ctx := mkVoiceClient channel true None]>);;
  modify (emit (VcConnect (guild_id ctx) channel)).

(** [await ctx.voice_client.move_to(voice_channel)]. *)
Definition vc_move_to (ctx : Context) (channel : Z) : M unit :=
  modify (set_voice_clients
            (alter (λ vc, mkVoiceClient channel (vc_connected vc) (vc_player vc)) (guild_id ctx)));;
  modify (emit (VcMoveTo (guild_id ctx) channel)).

(** [voice_client.play(source, after=after_playing)], the closure
    [after_playing] being the one of [ctx]. *)
Definition vc_play (ctx : Context) (source : AudioSource) : M unit :=
  vc ← voice_client_of ctx;
  match vc with
  | None => raise (mkExn "ClientException" "Not connected to voice.")
  | Some vc =>
    if negb (is_connected vc) then raise (mkExn "ClientException" "Not connected to voice.")
    else if is_playing vc then raise (mkExn "ClientException" "Already playing audio.")
    else
      modify (set_voice_clients
                <[guild_id ctx := with_player (Some (mkPlayer source false ctx)) vc]>);;
      modify (emit (VcPlay (guild_id ctx) source))
  end.

(** The player of [guild] ends, with [err] set when it ended on an error:
    the voice client has no player any more and owes the callback. *)
Definition end_player (guild : Z) (err : option string) (w : World) : World :=
  match voice_clients w !! guild with
  | Some vc =>
    match vc_player vc with
    | Some p =>
      set_callbacks (λ cbs, cbs ++ [(pl_after p, err)])
        (set_voice_clients <[guild := with_player None vc]> w)
    | None => w
    end
  | None => w
  end.

(** [vc.stop()], [vc.pause()], [vc.resume()]. *)
Definition vc_stop (ctx : Context) : M unit :=
  modify (end_player (guild_id ctx) None);;
  modify (emit (VcStop (guild_id ctx))).

Definition set_paused (b : bool) (vc : VoiceClient) : VoiceClient :=
  with_player ((λ p, mkPlayer (pl_source p) b (pl_after p)) <$> vc_player vc) vc.

Definition vc_pause (ctx : Context) : M unit :=
  modify (set_voice_clients (alter (set_paused true) (guild_id ctx)));;
  modify (emit (VcPause (guild_id ctx))).

Definition vc_resume (ctx : Context) : M unit :=
  modify (set_voice_clients (alter (set_paused false) (guild_id ctx)));;
  modify (emit (VcResume (guild_id ctx))).

(** [await ctx.voice_client.disconnect()]: the player is stopped and the
    guild has no voice client afterwards. *)
Definition vc_disconnect (ctx : Context) : M unit :=
  modify (end_player (guild_id ctx) None);;
  modify (set_voice_clients (delete (guild_id ctx)));;
  modify (emit (VcDisconnect (guild_id ctx))).

(** Python truthiness of [d.get(key)] for a string value. *)
Definition truthy (v : option string) : bool :=
  match v with
  | Some s => negb (String.eqb s "")
  | None => false
  end.

(** [a or b]. *)
Definition py_or (a b : option string) : option string :=
  if truthy a then a else b.

(** [query.startswith("http://") or query.startswith("https://")]. *)
Definition is_link (query : string) : bool :=
  String.prefix "http://" query || String.prefix "https://" query.

(** [data["entries"][0]]. *)
Definition first_entry (data : Info) : M Info :=
  match entries data with
  | None => raise (mkExn "KeyError" "'entries'")
  | Some [] => raise (mkExn "IndexError" "list index out of range")
  | Some (entry :: _) => mret entry
  end.

(** [if "entries" in data: data = data["entries"][0]]. *)
Definition unwrap_entries (data : Info) : M Info :=
  match entries data with
  | Some _ => first_entry data
  | None => mret data
  end.

(** ** Running queue operations *)

Inductive QueueOp :=
| Enqueue (song : Song)   (* add_to_queue *)
| Dequeue.                (* the pop of play_next_in_queue *)

(** The songs of the [Enqueue] operations, in order. *)
Fixpoint enqueued (ops : list QueueOp) : list Song :=
  match ops with
  | [] => []
  | Enqueue song :: ops => song :: enqueued ops
  | Dequeue :: ops => enqueued ops
  end.

(** Runs the operations on the queue of [guild]; returns the final world
    and the songs the [Dequeue] operations returned, in order. *)
Fixpoint run_queue_ops (guild : Z) (ops : list QueueOp) (w : World) : World * list Song :=
  match ops with
  | [] => (w, [])
  | Enqueue song :: ops => run_queue_ops guild ops (add_to_queue guild song w).1
  | Dequeue :: ops =>
    match dequeue_next guild w with
    | (w', Ret (Some song)) =>
      let (w'', out) := run_queue_ops guild ops w' in (w'', song :: out)
    | (w', _) => run_queue_ops guild ops w'
    end
  end.

(** ** Observations on a world *)

(** [get_guild_queue] leaves a world in which the guild has an entry. *)
Definition touch (guild : Z) (w : World) : World :=
  set_music_queues <[guild := queue_of guild w]> w.

Definition append_log (evs : list Event) (w : World) : World :=
  mkWorld (music_queues w) (voice_clients w) (callbacks w) (log w ++ evs) (recursion_limit w).

(** The messages sent with [ctx.send], with the guild they went to. *)
Definition sent_of (evs : list Event) : list (Z * string) :=
  omap (λ e, match e with Send guild msg => Some (guild, msg) | _ => None end) evs.

(** The streams started with [voice_client.play]. *)
Definition started_of (evs : list Event) : list (Z * AudioSource) :=
  omap (λ e, match e with VcPlay guild source => Some (guild, source) | _ => None end) evs.

(** The calls of [play_next_in_queue], with their call sites. *)
Definition calls_of (evs : list Event) : list (CallSite * Z) :=
  omap (λ e, match e with Call site guild => Some (site, guild) | _ => None end) evs.

(** The guild has a voice client and it is connected: the guard of
    [play_next_in_queue] lets the call through. *)
Definition connected (ctx : Context) (w : World) : bool :=
  from_option is_connected false (voice_clients w !! guild_id ctx).

(** The player of the guild's voice client, playing or paused. *)
Definition player_of (ctx : Context) (w : World) : option Player :=
  voice_clients w !! guild_id ctx ≫= vc_player.

(** The guild has a voice client and it is playing, not paused. *)
Definition playing (ctx : Context) (w : World) : bool :=
  from_option is_playing false (voice_clients w !! guild_id ctx).

(** ** A small guild, for the examples *)

Module Example.

(** A video as the resolver describes it. *)
Definition video (name : string) : Info :=
  mkInfo None (Some ("stream:" +:+ name)) (Some ("page:" +:+ name)) (Some name).

Definition results (found : list Info) : Info :=
  mkInfo (Some found) None None None.

(** A resolver that knows one search with two results, one search
    without results, one link to a list and the page of one video; it
    raises on everything else. *)
Definition resolver (query : string) : Result (option Info) :=
  if String.eqb query "ytsearch:cats" then Ret (Some (results [video "cat1"; video "cat2"]))
  else if String.eqb query "ytsearch:nothing" then Ret (Some (results []))
  else if String.eqb query "https://list" then Ret (Some (results [video "one"; video "two"]))
  else if String.eqb query "page:cat1" then Ret (Some (video "cat1"))
  else Raise (mkExn "DownloadError" "ERROR: Video unavailable").

Definition guild : Z := 1.
Definition channel : Z := 10.

Definition caller : Context := mkContext guild (Some (mkVoiceState (Some channel))).
Definition outsider : Context := mkContext guild None.

Definition gone1 : Song := mkSong "page:gone1" "Gone 1".
Definition cat1 : Song := mkSong "page:cat1" "cat1".

Definition idle_client : VoiceClient := mkVoiceClient channel true None.

Definition playing_client : VoiceClient :=
  mkVoiceClient channel true (Some (mkPlayer (FFmpegPCMAudio "stream:cat1") false caller)).

(** Python's default recursion limit of 1000, less the frames that are
    open when [play_next_in_queue] is first called. *)
Definition limit : nat := 985.

(** A guild without voice client, with an idle one and with a playing
    one, each with the given queue. *)
Definition unconnected (queue : list Song) : World :=
  mkWorld {[guild := queue]} ∅ [] [] limit.

Definition idle (queue : list Song) : World :=
  mkWorld {[guild := queue]} {[guild := idle_client]} [] [] limit.

Definition streaming (queue : list Song) : World :=
  mkWorld {[guild := queue]} {[guild := playing_client]} [] [] limit.

(** A song whose page the resolver answers with an empty list, and a
    resolver for which a link resolves to such a page. *)
Definition emptied : Song := mkSong "ytsearch:nothing" "Emptied".

Definition stale_resolver (query : string) : Result (option Info) :=
  if String.eqb query "https://stale"
  then Ret (Some (mkInfo None None (Some "https://emptied") (Some "Stale")))
  else if String.eqb query "https://emptied" then Ret (Some (results []))
  else Raise (mkExn "DownloadError" "ERROR: Video unavailable").

Definition other_guild : Z := 2.

(** A guild whose voice client holds a paused player. *)
Definition paused_client : VoiceClient :=
  mkVoiceClient channel true (Some (mkPlayer (FFmpegPCMAudio "stream:one") true caller)).

Definition paused (queue : list Song) : World :=
  mkWorld {[guild := queue]} {[guild := paused_client]} [] [] limit.

End Example.

Section Bot.

(** [ytdl.extract_info(url, download=False)]: it raises, returns [None], or
    returns an info dict.  The resolver is outside the bot; the bot is
    verified for every resolver. *)
Variable extract_info : string → Result (option Info).

Definition run_extract_info (url : string) : M (option Info) :=
  λ w, (w, extract_info url).

(** ** Playback *)

(** [create_audio_source]: [None] stands for Python's [None].  The handler
    of the [try] returns [None] from the function, as does the test
    [data is None] that follows it. *)
Definition create_audio_source (url : string) : M (option AudioSource) :=
  data ← try_except (run_extract_info url)
           (λ e, print ("yt-dlp error in create_audio_source: " +:+ exn_text e);; mret None);
  match data with
  | None => mret None
  | Some data =>
    data ← unwrap_entries data;
    let audio_url := info_url data in
    if negb (truthy audio_url) then mret None
    else mret (Some (FFmpegPCMAudio (default "" audio_url)))
  end.

(** [play_next_in_queue] from the point where [await
    create_audio_source(url)] returns [source] (lines 97-115), with [self]
    for the recursive call. *)
Definition play_next_resume (self : Context → M unit) (ctx : Context) (song : Song)
    (source : option AudioSource) : M unit :=
  match source with
  | None =>
    send ctx (could_not_play song);;
    modify (emit (Call FromRetry (guild_id ctx)));;
    self ctx
  | Some source =>
    vc_play ctx source;;
    send ctx (now_playing song)
  end.

(** The body of [play_next_in_queue], with [self] for the recursive call. *)
Definition play_next_body (self : Context → M unit) (ctx : Context) : M unit :=
  voice_client ← voice_client_of ctx;
  if negb (from_option is_connected false voice_client) then mret tt
  else
    song ← dequeue_next (guild_id ctx);
    match song with
    | None => send ctx "Queue ended ✅"
    | Some song =>
      source ← create_audio_source (url song);
      play_next_resume self ctx song source
    end.

(** [play_next_in_queue] with room for [n] calls of itself, this one
    included: Python raises [RecursionError] where the next call would
    nest deeper than the interpreter allows. *)
Fixpoint play_next_rounds (n : nat) (ctx : Context) : M unit :=
  match n with
  | O => raise (mkExn "RecursionError" "maximum recursion depth exceeded")
  | S n => play_next_body (play_next_rounds n) ctx
  end.

(** The call made by [play] and by [after_playing]: it may nest
    [recursion_limit] further calls. *)
Definition play_next_in_queue (ctx : Context) : M unit := λ w,
  play_next_rounds (S (recursion_limit w)) ctx w.

(** [after_playing(err)], the completion callback registered for [ctx]. *)
Definition after_playing (ctx : Context) (err : option string) : M unit :=
  match err with
  | Some e => print ("Player error: " +:+ e)
  | None => mret tt
  end;;
  try_except
    (modify (emit (Call FromAfterPlaying (guild_id ctx)));; play_next_in_queue ctx)
    (λ e, print ("Error in after_playing: " +:+ exn_text e)).

(** The player thread calls the callback that has been owed longest. *)
Definition deliver_callback : M unit := λ w,
  match callbacks w with
  | [] => (w, Ret tt)
  | (ctx, err) :: rest => after_playing ctx err (set_callbacks (λ _, rest) w)
  end.

(** ** Commands *)

(** The [try] block of [play]: the query is resolved as a link or as a
    search, and the first entry is taken. *)
Definition resolve_query (query : string) : M Info :=
  data ← (if is_link query then
            run_extract_info query
          else
            res ← run_extract_info ("ytsearch:" +:+ query);
            match res with
            | None => raise (mkExn "TypeError" "'NoneType' object is not subscriptable")
            | Some res => Some <$> first_entry res
            end);
  match data with
  | None => raise (mkExn "TypeError" "argument of type 'NoneType' is not iterable")
  | Some data => unwrap_entries data
  end.

(** Lines 138-142 of [play]: connect, or move, to the caller's channel. *)
Definition join_voice (ctx : Context) (voice_channel : Z) : M unit :=
  vc ← voice_client_of ctx;
  match vc with
  | None => vc_connect ctx voice_channel
  | Some vc =>
    if decide (vc_channel vc ≠ voice_channel) then vc_move_to ctx voice_channel
    else mret tt
  end.

(** [play]: in the [try], [None] stands for the [return] of the handler. *)
Definition play (ctx : Context) (query : string) : M unit :=
  match author_voice ctx ≫= vs_channel with
  | None => send ctx "You need to be in a voice channel first!"
  | Some voice_channel =>
    join_voice ctx voice_channel;;
    data ← try_except (Some <$> resolve_query query)
             (λ e, print ("yt-dlp error in play command: " +:+ exn_text e);;
                   send ctx "❌ Something went wrong while searching/downloading.";;
                   mret None);
    match data with
    | None => mret tt
    | Some data =>
      let url := py_or (info_webpage_url data) (info_url data) in
      let title := default "Unknown title" (info_title data) in
      if negb (truthy url) then send ctx "❌ Could not get a playable URL."
      else
        add_to_queue (guild_id ctx) (mkSong (default "" url) title);;
        send ctx ("➕ Added to queue: **" +:+ title +:+ "**");;
        voice_client ← voice_client_of ctx;
        match voice_client with
        | None =>
          raise (mkExn "AttributeError" "'NoneType' object has no attribute 'is_playing'")
        | Some voice_client =>
          if negb (is_playing voice_client) then
            modify (emit (Call FromPlay (guild_id ctx)));;
            play_next_in_queue ctx
          else mret tt
        end
    end
  end.

Definition pause (ctx : Context) : M unit :=
  vc ← voice_client_of ctx;
  if from_option is_playing false vc then vc_pause ctx;; send ctx "⏸ Paused"
  else send ctx "Nothing is playing right now.".

Definition resume (ctx : Context) : M unit :=
  vc ← voice_client_of ctx;
  if from_option is_paused false vc then vc_resume ctx;; send ctx "▶ Resumed"
  else send ctx "Nothing is paused.".

Definition skip (ctx : Context) : M unit :=
  vc ← voice_client_of ctx;
  if from_option is_playing false vc then vc_stop ctx;; send ctx "⏭ Skipped"
  else send ctx "Nothing to skip.".

Definition leave (ctx : Context) : M unit :=
  vc ← voice_client_of ctx;
  match vc with
  | Some _ => vc_disconnect ctx;; send ctx "👋 Left the voice channel."
  | None => send ctx "I'm not in a voice channel."
  end.

(** ["\n"]. *)
Definition newline : string := String (Ascii.ascii_of_nat 10) "".

(** The lines of [show_queue]: [f"{i}. {song['title']}"] over
    [enumerate(queue, start=1)]. *)
Definition queue_lines (queue : list Song) : list string :=
  imap (λ i song, pretty (S i) +:+ ". " +:+ title song) queue.

Definition show_queue (ctx : Context) : M unit :=
  queue ← get_guild_queue (guild_id ctx);
  match queue with
  | [] => send ctx "🧺 The queue is empty."
  | _ :: _ =>
    send ctx ("📜 **Current queue:**" +:+ newline +:+ String.concat newline (queue_lines queue))
  end.

(** ** Resolution failure *)


(** The query does not resolve in [play]: the [try] block raises, or the
    info dict it yields has no usable ["webpage_url"] or ["url"]. *)
Definition unresolved (query : string) : Prop :=
  ∀ w, match (resolve_query query w).2 with
       | Raise _ => True
       | Ret data => truthy (py_or (info_webpage_url data) (info_url data)) = false
       end.

(** The message [play] sends when it enqueues nothing. *)
Definition play_error_message (ctx : Context) (query : string) (w : World) : string :=
  match author_voice ctx ≫= vs_channel with
  | None => "You need to be in a voice channel first!"
  | Some _ =>
    match (resolve_query query w).2 with
    | Raise _ => "❌ Something went wrong while searching/downloading."
    | Ret _ => "❌ Could not get a playable URL."
    end
  end.

(** ** Resolution success *)

(** The info dict [create_audio_source] reads the stream url from: the
    first entry when the answer has entries, the answer itself otherwise. *)
Definition selected_info (data : Info) : Info :=
  match entries data with
  | Some (entry :: _) => entry
  | _ => data
  end.

(** The song's [url] resolves to [source] at playback time. *)
Definition resolves_to (url : string) (source : AudioSource) : Prop :=
  ∀ w, (create_audio_source url w).2 = Ret (Some source).

(** The song [play] builds from the info dict it resolved. *)
Definition song_of_info (data : Info) : Song :=
  mkSong (default "" (py_or (info_webpage_url data) (info_url data)))
         (default "Unknown title" (info_title data)).

(** No queued song has an empty url. *)
Definition nonempty_urls (w : World) : Prop :=
  ∀ guild, Forall (λ song, url song ≠ "") (queue_of guild w).

(** The player of the guild ends and its callback is delivered, [n] times
    over. *)
Fixpoint play_out (n : nat) (guild : Z) (w : World) : World :=
  match n with
  | O => w
  | S n => play_out n guild (deliver_callback (end_player guild None w)).1
  end.

(** * Proofs *)

Ltac unfold_monad :=
  repeat progress
    unfold mbind, M_bind, mret, M_ret, fmap, M_fmap, modify, gets, raise, try_except in *.

(** ** The queue store *)

Lemma queue_of_set guild guild' q w :
  queue_of guild' (set_music_queues <[guild := q]> w) =
  if decide (guild = guild') then q else queue_of guild' w.
Proof.
  unfold queue_of. simpl. rewrite lookup_insert.
  case_decide; reflexivity.
Qed.

Lemma queue_of_touch guild guild' w : queue_of guild' (touch guild w) = queue_of guild' w.
Proof.
  unfold touch. rewrite queue_of_set. case_decide; congruence.
Qed.

Lemma get_guild_queue_eq guild w :
  get_guild_queue guild w = (touch guild w, Ret (queue_of guild w)).
Proof.
  unfold get_guild_queue, touch, queue_of.
  destruct (music_queues w !! guild) as [q|] eqn:E; simpl; [|reflexivity].
  destruct w as [mq vcs cbs l lim]; unfold set_music_queues; simpl in *.
  rewrite insert_id by assumption. reflexivity.
Qed.

Lemma add_to_queue_eq guild song w :
  add_to_queue guild song w =
  (set_music_queues <[guild := queue_of guild w ++ [song]]> w, Ret tt).
Proof.
  unfold add_to_queue, queue_append. unfold_monad.
  rewrite get_guild_queue_eq. unfold touch, set_music_queues; simpl.
  rewrite lookup_insert_eq, insert_insert_eq. reflexivity.
Qed.

Lemma dequeue_next_cons guild song rest w :
  queue_of guild w = song :: rest →
  dequeue_next guild w = (set_music_queues <[guild := rest]> w, Ret (Some song)).
Proof.
  intros Hq. unfold dequeue_next, queue_pop0. unfold_monad.
  rewrite get_guild_queue_eq, Hq, queue_of_touch, Hq.
  unfold touch, set_music_queues; simpl. rewrite insert_insert_eq. reflexivity.
Qed.

Lemma dequeue_next_nil guild w :
  queue_of guild w = [] → dequeue_next guild w = (touch guild w, Ret None).
Proof.
  intros Hq. unfold dequeue_next. unfold_monad.
  rewrite get_guild_queue_eq, Hq. reflexivity.
Qed.

(** C1: for every guild and every sequence of enqueue ([add_to_queue]) and
    dequeue (the pop of [play_next_in_queue]) operations on its queue, the
    songs the dequeues return, followed by the songs still queued, are the
    songs queued at the start followed by the enqueued songs, in the order
    they were enqueued.  Enqueue appends at the tail; dequeue returns the
    head and leaves the tail (nothing on the empty queue). *)
Theorem queue_fifo (guild : Z) (ops : list QueueOp) (w : World) :
  (∀ song, queue_of guild (add_to_queue guild song w).1 = queue_of guild w ++ [song]) ∧
  (dequeue_next guild w).2 = Ret (head (queue_of guild w)) ∧
  queue_of guild (dequeue_next guild w).1 = tail (queue_of guild w) ∧
  let (w', out) := run_queue_ops guild ops w in
  queue_of guild w ++ enqueued ops = out ++ queue_of guild w'.
Proof.
  split; [|split; [|split]].
  - intros song. rewrite add_to_queue_eq; simpl.
    rewrite queue_of_set, decide_True by reflexivity. reflexivity.
  - destruct (queue_of guild w) as [|song rest] eqn:Hq.
    + rewrite (dequeue_next_nil _ _ Hq). reflexivity.
    + rewrite (dequeue_next_cons _ _ _ _ Hq). reflexivity.
  - destruct (queue_of guild w) as [|song rest] eqn:Hq.
    + rewrite (dequeue_next_nil _ _ Hq); simpl. rewrite queue_of_touch. exact Hq.
    + rewrite (dequeue_next_cons _ _ _ _ Hq); simpl.
      rewrite queue_of_set, decide_True by reflexivity. reflexivity.
  - revert w. induction ops as [|[song|] ops IH]; intros w; simpl.
    + rewrite app_nil_r. reflexivity.
    + specialize (IH (add_to_queue guild song w).1).
      destruct (run_queue_ops guild ops _) as [w' out].
      rewrite <- IH, add_to_queue_eq; simpl.
      rewrite queue_of_set, decide_True by reflexivity.
      rewrite <- app_assoc. reflexivity.
    + destruct (queue_of guild w) as [|song rest] eqn:Hq.
      * rewrite (dequeue_next_nil _ _ Hq).
        specialize (IH (touch guild w)).
        destruct (run_queue_ops guild ops _) as [w' out].
        rewrite <- IH, queue_of_touch, Hq. reflexivity.
      * rewrite (dequeue_next_cons _ _ _ _ Hq).
        specialize (IH (set_music_queues <[guild := rest]> w)).
        destruct (run_queue_ops guild ops _) as [w' out].
        rewrite queue_of_set, decide_True in IH by reflexivity.
        simpl. rewrite <- IH. reflexivity.
Qed.

(** ** [play_next_in_queue] *)

(** [create_audio_source] only prints. *)
Lemma create_audio_source_frame url w :
  ∃ evs, (create_audio_source url w).1 = append_log evs w ∧
         sent_of evs = [] ∧ started_of evs = [] ∧ calls_of evs = [].
Proof.
  unfold create_audio_source, run_extract_info, unwrap_entries, first_entry, print.
  unfold_monad.
  assert (Hid : w = append_log [] w).
  { destruct w; unfold append_log; simpl. rewrite app_nil_r. reflexivity. }
  destruct (extract_info url) as [[data|]|e]; simpl.
  - destruct (entries data) as [[|entry ?]|]; simpl;
      repeat match goal with |- context [if ?b then _ else _] => destruct b end;
      simpl; exists []; auto.
  - exists []; auto.
  - exists [Print ("yt-dlp error in create_audio_source: " +:+ exn_text e)]. auto.
Qed.

Lemma body_not_connected self ctx w :
  connected ctx w = false → play_next_body self ctx w = (w, Ret tt).
Proof.
  unfold connected, play_next_body, voice_client_of. unfold_monad.
  intros ->. reflexivity.
Qed.

Lemma body_empty self ctx w :
  connected ctx w = true → queue_of (guild_id ctx) w = [] →
  play_next_body self ctx w =
  (emit (Send (guild_id ctx) "Queue ended ✅") (touch (guild_id ctx) w), Ret tt).
Proof.
  unfold connected, play_next_body, voice_client_of, send. unfold_monad.
  intros -> Hq. simpl.
  rewrite (dequeue_next_nil _ _ Hq). reflexivity.
Qed.

Lemma body_cons self ctx w song rest :
  connected ctx w = true → queue_of (guild_id ctx) w = song :: rest →
  play_next_body self ctx w =
  match create_audio_source (url song) (set_music_queues <[guild_id ctx := rest]> w) with
  | (w', Ret None) =>
    self ctx (emit (Call FromRetry (guild_id ctx))
                (emit (Send (guild_id ctx) (could_not_play song)) w'))
  | (w', Ret (Some source)) =>
    (vc_play ctx source;; send ctx (now_playing song)) w'
  | (w', Raise exn) => (w', Raise exn)
  end.
Proof.
  unfold connected, play_next_body, play_next_resume, voice_client_of, send. unfold_monad.
  intros -> Hq. simpl.
  rewrite (dequeue_next_cons _ _ _ _ Hq).
  destruct (create_audio_source _ _) as [w' [[source|]|exn]]; reflexivity.
Qed.

Lemma queue_of_append_log guild evs w : queue_of guild (append_log evs w) = queue_of guild w.
Proof. reflexivity. Qed.

Lemma queue_of_emit guild e w : queue_of guild (emit e w) = queue_of guild w.
Proof. reflexivity. Qed.

Lemma connected_append_log ctx evs w : connected ctx (append_log evs w) = connected ctx w.
Proof. reflexivity. Qed.

Lemma connected_set_queue ctx f w : connected ctx (set_music_queues f w) = connected ctx w.
Proof. reflexivity. Qed.

(** Rounds beyond the length of the queue change nothing. *)
Lemma play_next_rounds_enough ctx (n m : nat) w :
  (length (queue_of (guild_id ctx) w) < n)%nat →
  (length (queue_of (guild_id ctx) w) < m)%nat →
  play_next_rounds n ctx w = play_next_rounds m ctx w.
Proof.
  revert m w. induction n as [|n IH]; intros m w Hn Hm; [lia|].
  destruct m as [|m]; [lia|]. simpl.
  destruct (connected ctx w) eqn:Hc.
  - destruct (queue_of (guild_id ctx) w) as [|song rest] eqn:Hq.
    + rewrite !body_empty by assumption. reflexivity.
    + rewrite !(body_cons _ _ _ _ _ Hc Hq).
      destruct (create_audio_source_frame (url song)
                  (set_music_queues <[guild_id ctx := rest]> w)) as (evs & Hw & _).
      destruct (create_audio_source _ _) as [w' [[source|]|exn]]; try reflexivity.
      simpl in Hw. subst w'. simpl in Hn, Hm.
      apply IH; change (queue_of (guild_id ctx) _)
        with (queue_of (guild_id ctx) (set_music_queues <[guild_id ctx := rest]> w));
        rewrite queue_of_set, decide_True by reflexivity; lia.
  - rewrite !body_not_connected by assumption. reflexivity.
Qed.

(** Below the limit, the limit does not matter. *)
Lemma play_next_rounds_total ctx (n : nat) w :
  (length (queue_of (guild_id ctx) w) ≤ recursion_limit w)%nat →
  (length (queue_of (guild_id ctx) w) < n)%nat →
  play_next_rounds n ctx w = play_next_in_queue ctx w.
Proof.
  intros Hl Hn. unfold play_next_in_queue. apply play_next_rounds_enough; lia.
Qed.

Lemma play_next_not_connected ctx w :
  connected ctx w = false → play_next_in_queue ctx w = (w, Ret tt).
Proof.
  intros Hc. unfold play_next_in_queue. simpl. apply body_not_connected, Hc.
Qed.

(** C10: when the guild has no voice client, or one that is not connected,
    [play_next_in_queue] returns at once and the world is the one it was
    called in: no song is dequeued (the queues are untouched, not even the
    empty list of a new guild is created), no stream is started and
    nothing is sent, also when the queue is empty. *)
Theorem play_next_without_voice_client (ctx : Context) (w : World) :
  connected ctx w = false →
  play_next_in_queue ctx w = (w, Ret tt).
Proof.
  exact (play_next_not_connected ctx w).
Qed.

Lemma play_next_empty ctx w :
  connected ctx w = true → queue_of (guild_id ctx) w = [] →
  play_next_in_queue ctx w =
  (emit (Send (guild_id ctx) "Queue ended ✅") (touch (guild_id ctx) w), Ret tt).
Proof.
  intros Hc Hq. unfold play_next_in_queue. simpl. apply body_empty; assumption.
Qed.

Lemma play_next_cons ctx w song rest :
  connected ctx w = true → queue_of (guild_id ctx) w = song :: rest →
  play_next_in_queue ctx w =
  match create_audio_source (url song) (set_music_queues <[guild_id ctx := rest]> w) with
  | (w', Ret None) =>
    play_next_rounds (recursion_limit w) ctx
      (emit (Call FromRetry (guild_id ctx))
         (emit (Send (guild_id ctx) (could_not_play song)) w'))
  | (w', Ret (Some source)) =>
    (vc_play ctx source;; send ctx (now_playing song)) w'
  | (w', Raise exn) => (w', Raise exn)
  end.
Proof.
  intros Hc Hq. unfold play_next_in_queue. simpl. apply body_cons; assumption.
Qed.

(** C3, amended: when the guild has a connected voice client and its queue
    is empty, [play_next_in_queue] returns normally having sent "Queue
    ended" and nothing else: no stream is started, no queue changes, and
    the voice clients (so whether the guild is playing) and the callbacks
    owed are as before. *)
Theorem play_next_on_empty_queue (ctx : Context) (w : World) :
  connected ctx w = true →
  queue_of (guild_id ctx) w = [] →
  let w' := (play_next_in_queue ctx w).1 in
  (play_next_in_queue ctx w).2 = Ret tt ∧
  log w' = log w ++ [Send (guild_id ctx) "Queue ended ✅"] ∧
  started_of (log w') = started_of (log w) ∧
  (∀ guild, queue_of guild w' = queue_of guild w) ∧
  voice_clients w' = voice_clients w ∧
  playing ctx w' = playing ctx w ∧
  callbacks w' = callbacks w.
Proof.
  intros Hc Hq. rewrite (play_next_empty _ _ Hc Hq). simpl.
  repeat split.
  - unfold started_of. rewrite omap_app. simpl. apply app_nil_r.
  - intros guild. apply queue_of_touch.
Qed.

Lemma sent_of_app evs1 evs2 : sent_of (evs1 ++ evs2) = sent_of evs1 ++ sent_of evs2.
Proof. apply omap_app. Qed.

Lemma started_of_app evs1 evs2 : started_of (evs1 ++ evs2) = started_of evs1 ++ started_of evs2.
Proof. apply omap_app. Qed.

Lemma calls_of_app evs1 evs2 : calls_of (evs1 ++ evs2) = calls_of evs1 ++ calls_of evs2.
Proof. apply omap_app. Qed.



(** ** [play] *)

(** The [try] block of [play] reads the resolver and nothing else. *)
Lemma resolve_query_state query w : (resolve_query query w).1 = w.
Proof.
  unfold resolve_query, run_extract_info, unwrap_entries, first_entry. unfold_monad.
  destruct (is_link query); destruct (extract_info _) as [[data|]|exn]; simpl;
    try reflexivity;
    repeat match goal with
           | |- context [match entries ?d with _ => _ end] => destruct (entries d) as [[|? ?]|]; simpl
           end; reflexivity.
Qed.

Lemma resolve_query_result query w w' : (resolve_query query w).2 = (resolve_query query w').2.
Proof.
  unfold resolve_query, run_extract_info, unwrap_entries, first_entry. unfold_monad.
  destruct (is_link query); destruct (extract_info _) as [[data|]|exn]; simpl;
    try reflexivity;
    repeat match goal with
           | |- context [match entries ?d with _ => _ end] => destruct (entries d) as [[|? ?]|]; simpl
           end; reflexivity.
Qed.

(** C7: when the caller of [play] is not in a voice channel, the command
    returns having sent "You need to be in a voice channel first!" and
    nothing else: the log grows by that one message (no voice connection
    is made or moved, [play_next_in_queue] is not called), and the queues,
    the voice clients and the callbacks owed are as before. *)
Theorem play_outside_voice_channel (ctx : Context) (query : string) (w : World) :
  author_voice ctx ≫= vs_channel = None →
  let w' := (play ctx query w).1 in
  (play ctx query w).2 = Ret tt ∧
  log w' = log w ++ [Send (guild_id ctx) "You need to be in a voice channel first!"] ∧
  music_queues w' = music_queues w ∧
  voice_clients w' = voice_clients w ∧
  callbacks w' = callbacks w.
Proof.
  intros Hv. unfold play. rewrite Hv. simpl. repeat split.
Qed.

Lemma join_voice_frame ctx voice_channel w :
  (join_voice ctx voice_channel w).2 = Ret tt ∧
  music_queues (join_voice ctx voice_channel w).1 = music_queues w ∧
  callbacks (join_voice ctx voice_channel w).1 = callbacks w ∧
  ∃ evs, log (join_voice ctx voice_channel w).1 = log w ++ evs ∧
         sent_of evs = [] ∧ started_of evs = [] ∧ calls_of evs = [].
Proof.
  unfold join_voice, voice_client_of, vc_connect, vc_move_to. unfold_monad. simpl.
  destruct (voice_clients w !! guild_id ctx) as [vc|]; [case_decide|]; simpl;
    repeat split; eauto.
  exists []. rewrite app_nil_r. auto.
Qed.

(** C9: when the query does not resolve in [play] (the [try] block raises,
    as it does for a search without entries, or the info dict has no
    usable url), [play] returns normally having sent one message, the
    error message, and the queues are unchanged: no song is enqueued,
    [play_next_in_queue] is not called and no stream is started. *)
Theorem play_unresolved (ctx : Context) (query : string) (w : World) :
  unresolved query →
  let w' := (play ctx query w).1 in
  (play ctx query w).2 = Ret tt ∧
  music_queues w' = music_queues w ∧
  sent_of (log w') = sent_of (log w) ++ [(guild_id ctx, play_error_message ctx query w)] ∧
  calls_of (log w') = calls_of (log w) ∧
  started_of (log w') = started_of (log w) ∧
  callbacks w' = callbacks w.
Proof.
  intros Hun. unfold play, play_error_message.
  destruct (author_voice ctx ≫= vs_channel) as [voice_channel|]; simpl.
  - destruct (join_voice_frame ctx voice_channel w)
      as (Hr & Hmq & Hcb & evs & Hlog & Hs & Hst & Hca).
    unfold_monad. unfold send, print. unfold_monad.
    destruct (join_voice ctx voice_channel w) as [w1 r1]. simpl in *. subst r1.
    specialize (Hun w1).
    rewrite (resolve_query_result query w w1).
    pose proof (resolve_query_state query w1) as Hst1.
    destruct (resolve_query query w1) as [w2 [data|exn]]; simpl in *; subst w2.
    + rewrite Hun. simpl. rewrite Hlog, !sent_of_app, !calls_of_app, !started_of_app.
      rewrite Hs, Hst, Hca. simpl. rewrite !app_nil_r. repeat split; assumption.
    + simpl. rewrite Hlog, !sent_of_app, !calls_of_app, !started_of_app.
      rewrite Hs, Hst, Hca. simpl. rewrite !app_nil_r. repeat split; assumption.
  - rewrite sent_of_app, calls_of_app, started_of_app. simpl.
    rewrite !app_nil_r. repeat split.
Qed.

(** A search that finds nothing is a query that does not resolve: indexing
    the first entry raises inside the [try]. *)
Lemma search_without_entries_unresolved query res :
  is_link query = false →
  extract_info ("ytsearch:" +:+ query) = Ret (Some res) →
  entries res = Some [] →
  unresolved query.
Proof.
  intros Hl He Hn w.
  unfold resolve_query, run_extract_info, first_entry. unfold_monad.
  rewrite Hl, He, Hn. exact I.
Qed.


(** ** Callbacks: [skip], [leave] and [after_playing] *)

Lemma vc_play_frame ctx source w :
  music_queues (vc_play ctx source w).1 = music_queues w ∧
  callbacks (vc_play ctx source w).1 = callbacks w ∧
  ∃ evs, log (vc_play ctx source w).1 = log w ++ evs ∧ calls_of evs = [].
Proof.
  unfold vc_play, voice_client_of. unfold_monad. simpl.
  destruct (voice_clients w !! guild_id ctx) as [vc|]; simpl;
    [destruct (is_connected vc); simpl; [destruct (is_playing vc); simpl|]|];
    repeat split; try (exists []; rewrite app_nil_r; split; reflexivity).
  eexists; split; reflexivity.
Qed.

(** [play_next_in_queue] owes no callback, and calls nothing but itself. *)
Lemma play_next_rounds_frame (n : nat) ctx w :
  callbacks (play_next_rounds n ctx w).1 = callbacks w ∧
  ∃ evs (k : nat),
    log (play_next_rounds n ctx w).1 = log w ++ evs ∧
    calls_of evs = replicate k (FromRetry, guild_id ctx).
Proof.
  revert w. induction n as [|n IH]; intros w; cbn [play_next_rounds].
  { split; [reflexivity|]. exists [], 0%nat. simpl. rewrite app_nil_r. split; reflexivity. }
  destruct (connected ctx w) eqn:Hc;
    [|rewrite (body_not_connected _ _ _ Hc); split; [reflexivity|];
      exists [], 0%nat; rewrite app_nil_r; split; reflexivity].
  destruct (queue_of (guild_id ctx) w) as [|song rest] eqn:Hq.
  - rewrite (body_empty _ _ _ Hc Hq). split; [reflexivity|].
    eexists _, 0%nat. split; reflexivity.
  - rewrite (body_cons _ _ _ _ _ Hc Hq).
    set (w1 := set_music_queues <[guild_id ctx := rest]> w).
    destruct (create_audio_source_frame (url song) w1) as (evs & Hw & _ & _ & Hca).
    destruct (create_audio_source (url song) w1) as [w2 [[source|]|exn]];
      simpl in Hw; subst w2.
    + destruct (vc_play_frame ctx source (append_log evs w1)) as (_ & Hcb & evs' & Hlog & Hca').
      unfold_monad. unfold send. unfold_monad.
      destruct (vc_play ctx source (append_log evs w1)) as [w3 [[]|exn]]; simpl in *.
      * split; [exact Hcb|]. exists (evs ++ evs' ++ [Send (guild_id ctx) (now_playing song)]), 0%nat.
        rewrite Hlog, <- !app_assoc. split; [reflexivity|].
        rewrite !calls_of_app, Hca, Hca'. reflexivity.
      * split; [exact Hcb|]. exists (evs ++ evs'), 0%nat.
        rewrite Hlog, <- !app_assoc. split; [reflexivity|].
        rewrite !calls_of_app, Hca, Hca'. reflexivity.
    + set (w3 := emit _ (emit _ _)).
      destruct (IH w3) as (Hcb & evs' & k & Hlog & Hca').
      split; [exact Hcb|].
      exists (evs ++ [Send (guild_id ctx) (could_not_play song);
                      Call FromRetry (guild_id ctx)] ++ evs'), (S k).
      rewrite Hlog. unfold w3; simpl. rewrite <- !app_assoc. split; [reflexivity|].
      rewrite calls_of_app, Hca. simpl. f_equal. exact Hca'.
    + split; [reflexivity|]. exists evs, 0%nat. split; [reflexivity|exact Hca].
Qed.

Lemma play_next_frame ctx w :
  callbacks (play_next_in_queue ctx w).1 = callbacks w ∧
  ∃ evs (k : nat),
    log (play_next_in_queue ctx w).1 = log w ++ evs ∧
    calls_of evs = replicate k (FromRetry, guild_id ctx).
Proof.
  exact (play_next_rounds_frame (S (recursion_limit w)) ctx w).
Qed.

(** The call made by [after_playing], with its [try]. *)
Lemma after_playing_try ctx w :
  let r := try_except
             (modify (emit (Call FromAfterPlaying (guild_id ctx)));; play_next_in_queue ctx)
             (λ e, print ("Error in after_playing: " +:+ exn_text e)) w in
  r.2 = Ret tt ∧
  callbacks r.1 = callbacks w ∧
  ∃ k : nat,
    calls_of (log r.1) =
    calls_of (log w) ++ (FromAfterPlaying, guild_id ctx) :: replicate k (FromRetry, guild_id ctx).
Proof.
  unfold print. unfold_monad.
  set (w1 := emit (Call FromAfterPlaying (guild_id ctx)) w).
  destruct (play_next_frame ctx w1) as (Hcb & evs & k & Hlog & Hca).
  destruct (play_next_in_queue ctx w1) as [w2 [[]|exn]]; simpl in *.
  - repeat split; [exact Hcb|]. exists k.
    rewrite Hlog, !calls_of_app, Hca, <- app_assoc. reflexivity.
  - repeat split; [exact Hcb|]. exists k.
    rewrite Hlog, !calls_of_app, Hca. simpl. rewrite app_nil_r, <- app_assoc. reflexivity.
Qed.

(** [after_playing] calls [play_next_in_queue] once, and never raises. *)
Lemma after_playing_calls_once ctx err w :
  (after_playing ctx err w).2 = Ret tt ∧
  callbacks (after_playing ctx err w).1 = callbacks w ∧
  ∃ k : nat,
    calls_of (log (after_playing ctx err w).1) =
    calls_of (log w) ++ (FromAfterPlaying, guild_id ctx) :: replicate k (FromRetry, guild_id ctx).
Proof.
  unfold after_playing. destruct err as [e|].
  - pose proof (after_playing_try ctx (emit (Print ("Player error: " +:+ e)) w)) as H.
    simpl in H. rewrite calls_of_app in H. simpl in H. rewrite app_nil_r in H. exact H.
  - exact (after_playing_try ctx w).
Qed.

(** C5, amended: [skip], while the voice client of the guild is playing
    (its player is not paused) and no other callback is owed, stops the
    player through the voice client and sends "Skipped"; it does not call
    [play_next_in_queue] itself and touches no queue.  The stopped player
    owes exactly one callback, and delivering it makes exactly one call of
    [play_next_in_queue] from [after_playing] for that guild (any further
    call is the retry of [play_next_in_queue] itself after a song that
    does not resolve), after which no callback is owed. *)
Theorem skip_advances_once (ctx : Context) (w : World) (vc : VoiceClient) (p : Player) :
  voice_clients w !! guild_id ctx = Some vc →
  vc_player vc = Some p →
  pl_paused p = false →
  guild_id (pl_after p) = guild_id ctx →
  callbacks w = [] →
  let w1 := (skip ctx w).1 in
  let w2 := (deliver_callback w1).1 in
  (skip ctx w).2 = Ret tt ∧
  log w1 = log w ++ [VcStop (guild_id ctx); Send (guild_id ctx) "⏭ Skipped"] ∧
  music_queues w1 = music_queues w ∧
  playing ctx w1 = false ∧
  callbacks w1 = [(pl_after p, None)] ∧
  (deliver_callback w1).2 = Ret tt ∧
  (∃ k : nat,
     calls_of (log w2) =
     calls_of (log w)
     ++ (FromAfterPlaying, guild_id ctx) :: replicate k (FromRetry, guild_id ctx)) ∧
  callbacks w2 = [].
Proof.
  intros Hvc Hp Hpa Hg Hcb.
  assert (Hskip : skip ctx w =
            (emit (Send (guild_id ctx) "⏭ Skipped")
               (emit (VcStop (guild_id ctx)) (end_player (guild_id ctx) None w)), Ret tt)).
  { unfold skip, voice_client_of, vc_stop, send. unfold_monad.
    rewrite Hvc. simpl. unfold is_playing. rewrite Hp, Hpa. reflexivity. }
  rewrite Hskip. simpl.
  assert (Hend : end_player (guild_id ctx) None w =
            set_callbacks (λ cbs, cbs ++ [(pl_after p, None)])
              (set_voice_clients <[guild_id ctx := with_player None vc]> w)).
  { unfold end_player. rewrite Hvc, Hp. reflexivity. }
  rewrite Hend. simpl. rewrite Hcb. simpl.
  split; [reflexivity|]. split; [rewrite <- app_assoc; reflexivity|].
  split; [reflexivity|].
  split; [unfold playing; simpl; rewrite lookup_insert_eq; reflexivity|].
  split; [reflexivity|].
  unfold deliver_callback. simpl. rewrite Hcb. simpl.
  match goal with |- context [after_playing ?c ?e ?w0] =>
    destruct (after_playing_calls_once c e w0) as (Hr & Hcb' & k & Hca)
  end.
  split; [exact Hr|]. split; [|exact Hcb'].
  exists k. rewrite Hca, Hg. simpl.
  rewrite !calls_of_app. simpl. rewrite !app_nil_r. reflexivity.
Qed.

(** C6, amended: [leave] clears no queue.  It returns normally with the
    queues of all guilds as they were; the guild has no voice client
    afterwards, and one message is sent: "Left the voice channel." when
    there was a voice client to disconnect, "I'm not in a voice channel."
    otherwise. *)
Theorem leave_keeps_queues (ctx : Context) (w : World) :
  let w' := (leave ctx w).1 in
  (leave ctx w).2 = Ret tt ∧
  music_queues w' = music_queues w ∧
  voice_clients w' !! guild_id ctx = None ∧
  sent_of (log w') =
    sent_of (log w)
    ++ [(guild_id ctx,
         match voice_clients w !! guild_id ctx with
         | Some _ => "👋 Left the voice channel."
         | None => "I'm not in a voice channel."
         end)].
Proof.
  unfold leave, voice_client_of, vc_disconnect, send. unfold_monad.
  destruct (voice_clients w !! guild_id ctx) as [vc|] eqn:Hvc; simpl.
  - unfold end_player. rewrite Hvc.
    destruct (vc_player vc); simpl; rewrite !sent_of_app, lookup_delete_eq; simpl;
      rewrite app_nil_r; repeat split.
  - rewrite sent_of_app. repeat split. exact Hvc.
Qed.

(** X16: the callback that the player stopped by [leave] owes finds no
    voice client: delivering it changes no queue, so the songs still
    queued survive [leave] and its callback. *)
Lemma leave_then_callback_keeps_queues ctx w vc :
  voice_clients w !! guild_id ctx = Some vc →
  callbacks w = [] →
  (∀ p, vc_player vc = Some p → guild_id (pl_after p) = guild_id ctx) →
  music_queues (deliver_callback (leave ctx w).1).1 = music_queues w.
Proof.
  intros Hvc Hcb Hg.
  unfold leave, voice_client_of, vc_disconnect, send. unfold_monad.
  rewrite Hvc. simpl. unfold end_player. rewrite Hvc.
  destruct (vc_player vc) as [p|] eqn:Hp; unfold deliver_callback; simpl; rewrite Hcb; simpl;
    [|reflexivity].
  unfold after_playing. unfold_monad. simpl.
  rewrite play_next_not_connected; [reflexivity|].
  unfold connected. simpl. rewrite (Hg p eq_refl), lookup_delete_eq. reflexivity.
Qed.

(** [play] while the voice client is playing: the song is enqueued and
    nothing else happens; [play_next_in_queue] is not called. *)
Lemma play_while_playing ctx query w voice_channel vc data :
  author_voice ctx ≫= vs_channel = Some voice_channel →
  voice_clients w !! guild_id ctx = Some vc →
  vc_channel vc = voice_channel →
  is_playing vc = true →
  (resolve_query query w).2 = Ret data →
  truthy (py_or (info_webpage_url data) (info_url data)) = true →
  let song := mkSong (default "" (py_or (info_webpage_url data) (info_url data)))
                     (default "Unknown title" (info_title data)) in
  play ctx query w =
  (emit (Send (guild_id ctx) ("➕ Added to queue: **" +:+ title song +:+ "**"))
     (set_music_queues <[guild_id ctx := queue_of (guild_id ctx) w ++ [song]]> w), Ret tt).
Proof.
  intros Hv Hvc Hch Hpl Hres Hurl song.
  unfold play. rewrite Hv.
  unfold join_voice, voice_client_of, send. unfold_monad. rewrite Hvc.
  rewrite decide_False by (intros Hne; apply Hne, Hch).
  pose proof (resolve_query_state query w) as Hst.
  destruct (resolve_query query w) as [w' r]. simpl in Hst, Hres. subst w' r.
  rewrite Hurl. simpl. rewrite add_to_queue_eq. simpl. rewrite Hvc, Hpl. reflexivity.
Qed.

(** ** Further behaviour of the guards *)

(** A song whose resolution raises outside the [try] of
    [create_audio_source] (an answer with an empty list of entries) is
    consumed without a message, and the exception leaves
    [play_next_in_queue]. *)
Lemma play_next_source_raises ctx w song rest data :
  connected ctx w = true →
  queue_of (guild_id ctx) w = song :: rest →
  extract_info (url song) = Ret (Some data) →
  entries data = Some [] →
  play_next_in_queue ctx w =
  (set_music_queues <[guild_id ctx := rest]> w,
   Raise (mkExn "IndexError" "list index out of range")).
Proof.
  intros Hc Hq He Hn. rewrite (play_next_cons _ _ _ _ Hc Hq).
  unfold create_audio_source, run_extract_info, unwrap_entries, first_entry. unfold_monad.
  rewrite He. simpl. rewrite Hn. reflexivity.
Qed.

(** [skip] without a playing voice client (none, idle or paused) does
    nothing but answer. *)
Lemma skip_when_not_playing ctx w :
  playing ctx w = false →
  skip ctx w = (emit (Send (guild_id ctx) "Nothing to skip.") w, Ret tt).
Proof.
  unfold playing, skip, voice_client_of, send. unfold_monad. intros ->. reflexivity.
Qed.

(** [play_next_in_queue] asks the voice client for a stream without asking
    whether one is running; the voice client refuses while it is playing,
    so the player and the streams started are as before. *)
Lemma play_next_rounds_while_playing (n : nat) ctx w :
  playing ctx w = true →
  started_of (log (play_next_rounds n ctx w).1) = started_of (log w) ∧
  voice_clients (play_next_rounds n ctx w).1 = voice_clients w.
Proof.
  revert w. induction n as [|n IH]; intros w Hpl; cbn [play_next_rounds].
  { split; reflexivity. }
  destruct (connected ctx w) eqn:Hc;
    [|rewrite (body_not_connected _ _ _ Hc); split; reflexivity].
  destruct (queue_of (guild_id ctx) w) as [|song rest] eqn:Hq.
  - rewrite (body_empty _ _ _ Hc Hq). simpl.
    rewrite started_of_app, app_nil_r. split; reflexivity.
  - rewrite (body_cons _ _ _ _ _ Hc Hq).
    set (w1 := set_music_queues <[guild_id ctx := rest]> w).
    destruct (create_audio_source_frame (url song) w1) as (evs & Hw & _ & Hst & _).
    destruct (create_audio_source (url song) w1) as [w2 [[source|]|exn]];
      simpl in Hw; subst w2.
    + unfold vc_play, voice_client_of. unfold_monad. simpl.
      unfold playing in Hpl. unfold connected in Hc.
      destruct (voice_clients w !! guild_id ctx) as [vc|]; [|discriminate].
      simpl in Hpl, Hc. rewrite Hc, Hpl. simpl.
      rewrite started_of_app, Hst, app_nil_r. split; reflexivity.
    + set (w3 := emit _ (emit _ _)).
      destruct (IH w3 Hpl) as [Hs Hv]. rewrite Hs, Hv. unfold w3; simpl.
      rewrite !started_of_app, Hst. simpl. rewrite !app_nil_r. split; reflexivity.
    + simpl. rewrite started_of_app, Hst, app_nil_r. split; reflexivity.
Qed.

Lemma play_next_while_playing ctx w :
  playing ctx w = true →
  started_of (log (play_next_in_queue ctx w).1) = started_of (log w) ∧
  voice_clients (play_next_in_queue ctx w).1 = voice_clients w.
Proof.
  exact (play_next_rounds_while_playing (S (recursion_limit w)) ctx w).
Qed.

(** The same for a call that comes back from [await create_audio_source]
    to find the voice client playing. *)
Lemma play_next_resume_while_playing (n : nat) ctx song source w :
  playing ctx w = true →
  started_of (log (play_next_resume (play_next_rounds n) ctx song source w).1) =
    started_of (log w) ∧
  voice_clients (play_next_resume (play_next_rounds n) ctx song source w).1 =
    voice_clients w.
Proof.
  intros Hpl. unfold play_next_resume. destruct source as [source|].
  - unfold vc_play, voice_client_of, send. unfold_monad. simpl.
    unfold playing in Hpl.
    destruct (voice_clients w !! guild_id ctx) as [vc|]; [|discriminate].
    simpl in Hpl. rewrite Hpl.
    destruct (is_connected vc); split; reflexivity.
  - unfold send. unfold_monad. simpl.
    set (w3 := emit _ (emit _ w)).
    destruct (play_next_rounds_while_playing n ctx w3 Hpl) as [Hs Hv].
    rewrite Hs, Hv. unfold w3; simpl.
    rewrite !started_of_app. simpl. rewrite !app_nil_r. split; reflexivity.
Qed.

(** The player that [vc_play] starts carries the callback of its own
    context, so of its own guild. *)
Lemma vc_play_registers ctx source w w' :
  vc_play ctx source w = (w', Ret tt) →
  ∃ vc, voice_clients w' !! guild_id ctx = Some vc ∧
        vc_player vc = Some (mkPlayer source false ctx).
Proof.
  unfold vc_play, voice_client_of. unfold_monad. simpl.
  destruct (voice_clients w !! guild_id ctx) as [vc|]; [|discriminate].
  destruct (is_connected vc); [|discriminate].
  destruct (is_playing vc); [discriminate|]. simpl.
  intros [= <-]. simpl. rewrite lookup_insert_eq. eauto.
Qed.

(** X20: enqueues and dequeues on one guild, in any number and order,
    leave the queue of every other guild as it was. *)
Lemma run_queue_ops_other_guild guild guild' ops w :
  guild ≠ guild' →
  queue_of guild' (run_queue_ops guild ops w).1 = queue_of guild' w.
Proof.
  intros Hne. revert w. induction ops as [|[song|] ops IH]; intros w; simpl.
  - reflexivity.
  - rewrite IH, add_to_queue_eq. simpl.
    rewrite queue_of_set, decide_False by assumption. reflexivity.
  - destruct (queue_of guild w) as [|song rest] eqn:Hq.
    + rewrite (dequeue_next_nil _ _ Hq), IH. apply queue_of_touch.
    + rewrite (dequeue_next_cons _ _ _ _ Hq).
      specialize (IH (set_music_queues <[guild := rest]> w)).
      destruct (run_queue_ops guild ops _) as [w' out]. simpl in *.
      rewrite IH, queue_of_set, decide_False by assumption. reflexivity.
Qed.

(** ** More on the queue store *)

(** X1: [get_guild_queue] returns the list stored for the guild, the empty
    list for a guild it has not seen; afterwards the guild has an entry,
    no guild's list has changed, every entry that existed is still there,
    and a second call changes nothing. *)
Theorem get_guild_queue_lazy (guild : Z) (w : World) :
  let w' := (get_guild_queue guild w).1 in
  (get_guild_queue guild w).2 = Ret (queue_of guild w) ∧
  music_queues w' !! guild = Some (queue_of guild w) ∧
  (∀ guild', queue_of guild' w' = queue_of guild' w) ∧
  music_queues w ⊆ music_queues w' ∧
  get_guild_queue guild w' = (w', Ret (queue_of guild w)).
Proof.
  rewrite get_guild_queue_eq. simpl.
  split; [reflexivity|]. split; [apply lookup_insert_eq|].
  split; [intros guild'; apply queue_of_touch|]. split.
  - unfold queue_of. destruct (music_queues w !! guild) as [q|] eqn:E; simpl.
    + rewrite insert_id by assumption. reflexivity.
    + apply insert_subseteq, E.
  - rewrite get_guild_queue_eq, queue_of_touch. f_equal.
    unfold touch at 1. rewrite queue_of_touch.
    unfold touch, set_music_queues; simpl. rewrite insert_insert_eq. reflexivity.
Qed.

(** ** More on playback *)

Lemma create_audio_source_some_state url source w :
  (create_audio_source url w).2 = Ret (Some source) → (create_audio_source url w).1 = w.
Proof.
  unfold create_audio_source, run_extract_info, unwrap_entries, first_entry, print.
  unfold_monad.
  destruct (extract_info url) as [[data|]|e]; simpl; try discriminate.
  destruct (entries data) as [[|entry ?]|]; simpl; try discriminate;
    repeat match goal with |- context [if ?b then _ else _] => destruct b end;
    simpl; intros; try discriminate; reflexivity.
Qed.

(** X2: [create_audio_source] hands out a source only for a stream url that
    is not empty: the answer of the resolver is an info dict, the url is
    the ["url"] of its first entry (of the dict itself when it has no
    entries), and nothing is printed. *)
Theorem create_audio_source_sound (url : string) (source : AudioSource) (w : World) :
  (create_audio_source url w).2 = Ret (Some source) →
  ∃ data stream,
    extract_info url = Ret (Some data) ∧
    info_url (selected_info data) = Some stream ∧
    stream ≠ "" ∧
    source = FFmpegPCMAudio stream ∧
    (create_audio_source url w).1 = w.
Proof.
  intros H. pose proof (create_audio_source_some_state _ _ _ H) as Hst.
  unfold create_audio_source, run_extract_info, unwrap_entries, first_entry, print in H.
  unfold_monad.
  destruct (extract_info url) as [[data|]|e] eqn:He; simpl in H; try discriminate.
  exists data. unfold selected_info.
  destruct (entries data) as [[|entry ?]|]; simpl in H; try discriminate;
    (destruct (info_url _) as [stream|] eqn:Hu; simpl in H; [|discriminate]);
    (destruct (String.eqb stream "") eqn:Hs; simpl in H; [discriminate|]);
    injection H as <-; exists stream; apply String.eqb_neq in Hs; auto.
Qed.

(** X3: [create_audio_source] raises exactly when the resolver answers with
    an info dict whose list of entries is empty (the index [0] is outside
    the [try]); an exception of the resolver itself is caught. *)
Theorem create_audio_source_raises_iff (url : string) (w : World) :
  (∃ exn, (create_audio_source url w).2 = Raise exn) ↔
  (∃ data, extract_info url = Ret (Some data) ∧ entries data = Some []).
Proof.
  unfold create_audio_source, run_extract_info, unwrap_entries, first_entry, print.
  unfold_monad. split.
  - intros [exn H]. revert H.
    destruct (extract_info url) as [[data|]|e]; simpl; try discriminate.
    destruct (entries data) as [[|entry ?]|] eqn:He; simpl;
      repeat match goal with |- context [if ?b then _ else _] => destruct b end;
      simpl; try discriminate.
    intros _. exists data. auto.
  - intros (data & -> & He). simpl. rewrite He. simpl. eauto.
Qed.

Lemma queue_of_same guild w w' : music_queues w' = music_queues w → queue_of guild w' = queue_of guild w.
Proof. unfold queue_of. intros ->. reflexivity. Qed.

Lemma play_next_rounds_drop (n : nat) ctx w :
  ∃ k : nat, ∀ guild,
    queue_of guild (play_next_rounds n ctx w).1 =
    if decide (guild = guild_id ctx) then drop k (queue_of guild w) else queue_of guild w.
Proof.
  revert w. induction n as [|n IH]; intros w; cbn [play_next_rounds].
  { exists 0%nat. intros guild. case_decide; reflexivity. }
  destruct (connected ctx w) eqn:Hc;
    [|rewrite (body_not_connected _ _ _ Hc); exists 0%nat; intros guild;
      case_decide; reflexivity].
  destruct (queue_of (guild_id ctx) w) as [|song rest] eqn:Hq.
  - rewrite (body_empty _ _ _ Hc Hq). exists 0%nat. intros guild. simpl.
    rewrite queue_of_emit, queue_of_touch. case_decide; reflexivity.
  - rewrite (body_cons _ _ _ _ _ Hc Hq).
    set (w1 := set_music_queues <[guild_id ctx := rest]> w).
    assert (H1 : ∀ guild, queue_of guild w1 =
              if decide (guild = guild_id ctx) then drop 1 (queue_of guild w)
              else queue_of guild w).
    { intros guild. unfold w1. rewrite queue_of_set.
      destruct (decide (guild_id ctx = guild)) as [<-|Hne].
      - rewrite decide_True, Hq by reflexivity. reflexivity.
      - rewrite decide_False by congruence. reflexivity. }
    destruct (create_audio_source_frame (url song) w1) as (evs & Hw & _).
    destruct (create_audio_source (url song) w1) as [w2 [[source|]|exn]];
      simpl in Hw; subst w2.
    + exists 1%nat. intros guild. rewrite <- H1.
      destruct (vc_play_frame ctx source (append_log evs w1)) as (Hmq & _).
      unfold_monad. unfold send. unfold_monad.
      destruct (vc_play ctx source (append_log evs w1)) as [w3 [[]|exn]]; simpl in *;
        exact (queue_of_same guild w1 w3 Hmq).
    + set (w3 := emit _ (emit _ _)).
      destruct (IH w3) as [k Hk]. exists (S k). intros guild. rewrite Hk.
      change (queue_of guild w3) with (queue_of guild w1). rewrite H1.
      case_decide; [|reflexivity]. rewrite drop_drop. reflexivity.
    + exists 1%nat. intros guild. simpl. rewrite <- H1. reflexivity.
Qed.

Lemma play_next_drop ctx w :
  ∃ k : nat, ∀ guild,
    queue_of guild (play_next_in_queue ctx w).1 =
    if decide (guild = guild_id ctx) then drop k (queue_of guild w) else queue_of guild w.
Proof.
  exact (play_next_rounds_drop (S (recursion_limit w)) ctx w).
Qed.

(** X4: [play_next_in_queue] only ever removes songs from the front of the
    guild's own queue: afterwards that queue is what it was without its
    first [k] songs, for some [k] up to its length, and every other
    guild's queue is as it was.  It never enqueues and never reorders. *)
Theorem play_next_consumes_prefix (ctx : Context) (w : World) :
  ∃ k : nat,
    (k ≤ length (queue_of (guild_id ctx) w))%nat ∧
    ∀ guild,
      queue_of guild (play_next_in_queue ctx w).1 =
      if decide (guild = guild_id ctx) then drop k (queue_of guild w) else queue_of guild w.
Proof.
  destruct (play_next_drop ctx w) as [k Hk].
  destruct (decide (k ≤ length (queue_of (guild_id ctx) w))%nat) as [Hle|Hgt].
  - exists k. split; [exact Hle | exact Hk].
  - exists (length (queue_of (guild_id ctx) w)). split; [reflexivity|].
    intros guild. rewrite Hk. case_decide; [subst guild|reflexivity].
    rewrite !drop_ge by lia. reflexivity.
Qed.

Lemma play_next_rounds_starts (n : nat) ctx w vc song rest source :
  voice_clients w !! guild_id ctx = Some vc →
  is_connected vc = true →
  is_playing vc = false →
  queue_of (guild_id ctx) w = song :: rest →
  resolves_to (url song) source →
  play_next_rounds (S n) ctx w =
  (emit (Send (guild_id ctx) (now_playing song))
     (emit (VcPlay (guild_id ctx) source)
        (set_voice_clients
           <[guild_id ctx := with_player (Some (mkPlayer source false ctx)) vc]>
           (set_music_queues <[guild_id ctx := rest]> w))), Ret tt).
Proof.
  intros Hvc Hc Hpl Hq Hres.
  assert (Hcon : connected ctx w = true) by (unfold connected; rewrite Hvc; exact Hc).
  cbn [play_next_rounds]. rewrite (body_cons _ _ _ _ _ Hcon Hq).
  set (w1 := set_music_queues <[guild_id ctx := rest]> w).
  pose proof (Hres w1) as Hr.
  pose proof (create_audio_source_some_state _ _ _ Hr) as Hst.
  destruct (create_audio_source (url song) w1) as [w2 r]. simpl in Hr, Hst. subst w2 r.
  unfold vc_play, voice_client_of, send. unfold_monad. simpl.
  rewrite Hvc, Hc, Hpl. reflexivity.
Qed.

Lemma play_next_starts ctx w vc song rest source :
  voice_clients w !! guild_id ctx = Some vc →
  is_connected vc = true →
  is_playing vc = false →
  queue_of (guild_id ctx) w = song :: rest →
  resolves_to (url song) source →
  play_next_in_queue ctx w =
  (emit (Send (guild_id ctx) (now_playing song))
     (emit (VcPlay (guild_id ctx) source)
        (set_voice_clients
           <[guild_id ctx := with_player (Some (mkPlayer source false ctx)) vc]>
           (set_music_queues <[guild_id ctx := rest]> w))), Ret tt).
Proof.
  exact (play_next_rounds_starts (recursion_limit w) ctx w vc song rest source).
Qed.



(** ** More on [play] *)

(** X6: after lines 138-142 of [play] the guild has a voice client in the
    caller's channel; a client that existed keeps its player and its
    connection state, a new one is connected and has no player.  Doing
    the same again changes nothing and tells the voice client nothing. *)
Theorem join_voice_settles (ctx : Context) (voice_channel : Z) (w : World) :
  let w' := (join_voice ctx voice_channel w).1 in
  (∃ vc, voice_clients w' !! guild_id ctx = Some vc ∧
         vc_channel vc = voice_channel ∧
         vc_player vc = voice_clients w !! guild_id ctx ≫= vc_player ∧
         vc_connected vc = from_option vc_connected true (voice_clients w !! guild_id ctx)) ∧
  join_voice ctx voice_channel w' = (w', Ret tt).
Proof.
  unfold join_voice, voice_client_of, vc_connect, vc_move_to. unfold_monad. simpl.
  destruct (voice_clients w !! guild_id ctx) as [vc|] eqn:Hvc; [case_decide|]; simpl.
  - rewrite lookup_alter_eq, Hvc. simpl. rewrite decide_False by (intros Hne; apply Hne; reflexivity).
    split; [eexists; repeat split|reflexivity].
  - rewrite Hvc. rewrite decide_False by tauto.
    split; [|reflexivity]. exists vc. repeat split.
    destruct (decide (vc_channel vc = voice_channel)); tauto.
  - rewrite lookup_insert_eq. simpl. rewrite decide_False by (intros Hne; apply Hne; reflexivity).
    split; [eexists; repeat split|reflexivity].
Qed.

Lemma join_voice_client ctx voice_channel w :
  ∃ vc, voice_clients (join_voice ctx voice_channel w).1 !! guild_id ctx = Some vc ∧
        vc_player vc = voice_clients w !! guild_id ctx ≫= vc_player ∧
        vc_connected vc = from_option vc_connected true (voice_clients w !! guild_id ctx).
Proof.
  unfold join_voice, voice_client_of, vc_connect, vc_move_to. unfold_monad. simpl.
  destruct (voice_clients w !! guild_id ctx) as [vc|] eqn:Hvc; [case_decide|]; simpl.
  - rewrite lookup_alter_eq, Hvc. simpl. eexists; repeat split.
  - rewrite Hvc. exists vc. repeat split.
  - rewrite lookup_insert_eq. eexists; repeat split.
Qed.

Lemma join_voice_playing ctx voice_channel w :
  playing ctx (join_voice ctx voice_channel w).1 = playing ctx w.
Proof.
  destruct (join_voice_client ctx voice_channel w) as (vc & Hvc & Hp & _).
  unfold playing. rewrite Hvc. simpl. unfold is_playing. rewrite Hp.
  destruct (voice_clients w !! guild_id ctx) as [vc0|]; reflexivity.
Qed.

(** [play] when the caller is in a voice channel and the query resolves. *)
Lemma play_resolved_eq ctx query w voice_channel data :
  author_voice ctx ≫= vs_channel = Some voice_channel →
  (resolve_query query w).2 = Ret data →
  truthy (py_or (info_webpage_url data) (info_url data)) = true →
  let w1 := (join_voice ctx voice_channel w).1 in
  let w2 := emit (Send (guild_id ctx)
                    ("➕ Added to queue: **" +:+ title (song_of_info data) +:+ "**"))
              (set_music_queues
                 <[guild_id ctx := queue_of (guild_id ctx) w1 ++ [song_of_info data]]> w1) in
  play ctx query w =
  if playing ctx w2 then (w2, Ret tt)
  else play_next_in_queue ctx (emit (Call FromPlay (guild_id ctx)) w2).
Proof.
  intros Hv Hres Hurl. unfold play. rewrite Hv.
  destruct (join_voice_frame ctx voice_channel w) as (Hr & _).
  destruct (join_voice_client ctx voice_channel w) as (vc & Hvc & _).
  unfold_monad. unfold send. unfold_monad.
  destruct (join_voice ctx voice_channel w) as [w1 r1]. simpl in *. subst r1.
  rewrite (resolve_query_result query w w1) in Hres.
  pose proof (resolve_query_state query w1) as Hst.
  destruct (resolve_query query w1) as [w' r]. simpl in Hst, Hres. subst w' r.
  rewrite Hurl. simpl. rewrite add_to_queue_eq. simpl. rewrite Hvc.
  unfold playing. simpl. rewrite Hvc. simpl.
  destruct (is_playing vc); reflexivity.
Qed.

Lemma truthy_default v : truthy v = true → default "" v ≠ "".
Proof.
  destruct v as [s|]; simpl; [|discriminate].
  intros H Hs. subst s. discriminate.
Qed.

Lemma play_unresolved_queues ctx query w voice_channel :
  author_voice ctx ≫= vs_channel = Some voice_channel →
  match (resolve_query query w).2 with
  | Raise _ => True
  | Ret data => truthy (py_or (info_webpage_url data) (info_url data)) = false
  end →
  music_queues (play ctx query w).1 = music_queues w.
Proof.
  intros Hv Hun. unfold play. rewrite Hv.
  destruct (join_voice_frame ctx voice_channel w) as (Hr & Hmq & _).
  unfold_monad. unfold send, print. unfold_monad.
  destruct (join_voice ctx voice_channel w) as [w1 r1]. simpl in *. subst r1.
  rewrite (resolve_query_result query w w1) in Hun.
  pose proof (resolve_query_state query w1) as Hst1.
  destruct (resolve_query query w1) as [w2 [data|exn]]; simpl in *; subst w2.
  - rewrite Hun. simpl. exact Hmq.
  - simpl. exact Hmq.
Qed.

(** X7: when the caller is in a voice channel and the query resolves to an
    info dict with a usable url, [play] appends the song to the guild's
    queue and confirms it with "Added to queue".  While the voice client
    is playing that is all: [play_next_in_queue] is not called and no
    stream is started.  Otherwise [play_next_in_queue] is called exactly
    once from [play], and the queue is then the extended queue without
    the songs that call consumed from its front. *)
Theorem play_enqueues_then_advances
    (ctx : Context) (query : string) (w : World) (voice_channel : Z) (data : Info) :
  author_voice ctx ≫= vs_channel = Some voice_channel →
  (resolve_query query w).2 = Ret data →
  truthy (py_or (info_webpage_url data) (info_url data)) = true →
  let w' := (play ctx query w).1 in
  let queue := queue_of (guild_id ctx) w ++ [song_of_info data] in
  let added := (guild_id ctx, "➕ Added to queue: **" +:+ title (song_of_info data) +:+ "**") in
  (∃ more, sent_of (log w') = sent_of (log w) ++ added :: more) ∧
  if playing ctx w then
    (play ctx query w).2 = Ret tt ∧
    queue_of (guild_id ctx) w' = queue ∧
    sent_of (log w') = sent_of (log w) ++ [added] ∧
    calls_of (log w') = calls_of (log w) ∧
    started_of (log w') = started_of (log w)
  else
    ∃ j k : nat,
      queue_of (guild_id ctx) w' = drop j queue ∧
      calls_of (log w') =
      calls_of (log w) ++ (FromPlay, guild_id ctx) :: replicate k (FromRetry, guild_id ctx).
Proof.
  intros Hv Hres Hurl. simpl. rewrite (play_resolved_eq _ _ _ _ _ Hv Hres Hurl).
  destruct (join_voice_frame ctx voice_channel w)
    as (_ & Hmq & _ & evs & Hlog & Hs & Hst & Hca).
  pose proof (join_voice_playing ctx voice_channel w) as Hpl.
  set (w1 := (join_voice ctx voice_channel w).1) in *.
  assert (Hq1 : queue_of (guild_id ctx) w1 = queue_of (guild_id ctx) w)
    by (apply queue_of_same, Hmq).
  rewrite Hq1.
  set (w2 := emit _ (set_music_queues _ w1)).
  assert (Hpl2 : playing ctx w2 = playing ctx w) by exact Hpl.
  assert (Hq2 : queue_of (guild_id ctx) w2 = queue_of (guild_id ctx) w ++ [song_of_info data]).
  { unfold w2. rewrite queue_of_emit, queue_of_set, decide_True by reflexivity. reflexivity. }
  assert (Hs2 : sent_of (log w2) = sent_of (log w) ++
            [(guild_id ctx, "➕ Added to queue: **" +:+ title (song_of_info data) +:+ "**")]).
  { unfold w2. simpl. rewrite Hlog, !sent_of_app, Hs. simpl. rewrite app_nil_r. reflexivity. }
  assert (Hc2 : calls_of (log w2) = calls_of (log w)).
  { unfold w2. simpl. rewrite Hlog, !calls_of_app, Hca. simpl. rewrite !app_nil_r. reflexivity. }
  assert (Hst2 : started_of (log w2) = started_of (log w)).
  { unfold w2. simpl. rewrite Hlog, !started_of_app, Hst. simpl. rewrite !app_nil_r. reflexivity. }
  rewrite Hpl2. destruct (playing ctx w) eqn:Hp.
  - simpl. split; [exists []; exact Hs2|]. repeat split; assumption.
  - set (w3 := emit (Call FromPlay (guild_id ctx)) w2).
    destruct (play_next_frame ctx w3) as (_ & evs' & k & Hlog' & Hca').
    destruct (play_next_drop ctx w3) as [j Hj].
    split.
    + exists (sent_of evs'). rewrite Hlog', sent_of_app.
      change (log w3) with (log w2 ++ [Call FromPlay (guild_id ctx)]).
      rewrite sent_of_app, Hs2. simpl. rewrite app_nil_r, <- app_assoc. reflexivity.
    + exists j, k. split.
      * rewrite Hj, decide_True by reflexivity.
        change (queue_of (guild_id ctx) w3) with (queue_of (guild_id ctx) w2).
        rewrite Hq2. reflexivity.
      * rewrite Hlog', calls_of_app, Hca'.
        change (log w3) with (log w2 ++ [Call FromPlay (guild_id ctx)]).
        rewrite calls_of_app, Hc2. simpl. rewrite <- app_assoc. reflexivity.
Qed.

(** X8: [play] never queues a song with an empty url: if no queued song
    has one before [play], none has one afterwards, whatever the caller,
    the query and the resolver. *)
Theorem play_keeps_nonempty_urls (ctx : Context) (query : string) (w : World) :
  nonempty_urls w → nonempty_urls (play ctx query w).1.
Proof.
  intros Hw guild.
  destruct (author_voice ctx ≫= vs_channel) as [voice_channel|] eqn:Hv.
  - destruct ((resolve_query query w).2) as [data|exn] eqn:Hres.
    + destruct (truthy (py_or (info_webpage_url data) (info_url data))) eqn:Hurl.
      * rewrite (play_resolved_eq _ _ _ _ _ Hv Hres Hurl).
        destruct (join_voice_frame ctx voice_channel w) as (_ & Hmq & _).
        set (w1 := (join_voice ctx voice_channel w).1) in *.
        set (w2 := emit _ (set_music_queues _ w1)).
        assert (H2 : ∀ guild, Forall (λ song, url song ≠ "") (queue_of guild w2)).
        { intros g. unfold w2. rewrite queue_of_emit, queue_of_set.
          rewrite !(queue_of_same _ w w1 Hmq). case_decide; [|apply Hw].
          apply Forall_app. split; [apply Hw|].
          constructor; [|constructor]. apply truthy_default, Hurl. }
        destruct (playing ctx w2); [apply H2|].
        destruct (play_next_drop ctx (emit (Call FromPlay (guild_id ctx)) w2)) as [k Hk].
        rewrite Hk. case_decide; [apply Forall_drop|]; apply H2.
      * rewrite (queue_of_same guild w); [apply Hw|].
        apply (play_unresolved_queues _ _ _ _ Hv). rewrite Hres. exact Hurl.
    + rewrite (queue_of_same guild w); [apply Hw|].
      apply (play_unresolved_queues _ _ _ _ Hv). rewrite Hres. exact I.
  - unfold play. rewrite Hv. apply Hw.
Qed.

(** X9: [play] on a guild that is not playing and has nothing queued, with
    no voice client or a connected one, and a query whose song resolves at
    playback time: the song is confirmed with "Added to queue", its stream
    is started at once with the callback of the caller's context, "Now
    playing" is sent, and the queue is empty again. *)
Theorem play_on_idle_guild_starts
    (ctx : Context) (query : string) (w : World) (voice_channel : Z) (data : Info)
    (source : AudioSource) :
  author_voice ctx ≫= vs_channel = Some voice_channel →
  (resolve_query query w).2 = Ret data →
  truthy (py_or (info_webpage_url data) (info_url data)) = true →
  queue_of (guild_id ctx) w = [] →
  playing ctx w = false →
  from_option vc_connected true (voice_clients w !! guild_id ctx) = true →
  resolves_to (url (song_of_info data)) source →
  let w' := (play ctx query w).1 in
  (play ctx query w).2 = Ret tt ∧
  queue_of (guild_id ctx) w' = [] ∧
  sent_of (log w') =
    sent_of (log w)
    ++ [(guild_id ctx, "➕ Added to queue: **" +:+ title (song_of_info data) +:+ "**");
        (guild_id ctx, now_playing (song_of_info data))] ∧
  started_of (log w') = started_of (log w) ++ [(guild_id ctx, source)] ∧
  (∃ vc, voice_clients w' !! guild_id ctx = Some vc ∧
         vc_player vc = Some (mkPlayer source false ctx)).
Proof.
  intros Hv Hres Hurl Hq Hpl Hcon Hsrc. simpl.
  rewrite (play_resolved_eq _ _ _ _ _ Hv Hres Hurl).
  destruct (join_voice_frame ctx voice_channel w)
    as (_ & Hmq & _ & evs & Hlog & Hs & Hst & _).
  destruct (join_voice_client ctx voice_channel w) as (vc & Hvc & Hp & Hc).
  pose proof (join_voice_playing ctx voice_channel w) as Hpl1.
  set (w1 := (join_voice ctx voice_channel w).1) in *.
  rewrite (queue_of_same _ w w1 Hmq), Hq. simpl.
  set (w2 := emit _ (set_music_queues _ w1)).
  assert (Hpl2 : playing ctx w2 = false) by (rewrite <- Hpl; exact Hpl1).
  rewrite Hpl2.
  set (w3 := emit (Call FromPlay (guild_id ctx)) w2).
  assert (Hvc3 : voice_clients w3 !! guild_id ctx = Some vc) by exact Hvc.
  assert (Hq3 : queue_of (guild_id ctx) w3 = [song_of_info data]).
  { unfold w3, w2. rewrite !queue_of_emit, queue_of_set, decide_True by reflexivity.
    reflexivity. }
  assert (Hip : is_playing vc = false).
  { unfold playing in Hpl2. change (voice_clients w2) with (voice_clients w1) in Hpl2.
    rewrite Hvc in Hpl2. exact Hpl2. }
  assert (Hic : is_connected vc = true) by (unfold is_connected; rewrite Hc; exact Hcon).
  rewrite (play_next_starts _ _ _ _ _ _ Hvc3 Hic Hip Hq3 Hsrc). simpl.
  rewrite Hlog, !sent_of_app, !started_of_app, Hs, Hst. simpl. rewrite !app_nil_r.
  repeat split.
  - rewrite !queue_of_emit. unfold queue_of. simpl. rewrite lookup_insert_eq. reflexivity.
  - rewrite <- app_assoc. reflexivity.
  - rewrite lookup_insert_eq. eauto.
Qed.

(** X10: a search (a query that is not a link) resolves in [play] only if
    the resolver answers with an info dict that has a first entry: with
    any other answer ([None], no ["entries"], an empty list) or an
    exception, the query is unresolved. *)
Theorem search_needs_entries (query : string) :
  is_link query = false →
  (∀ res first others,
     extract_info ("ytsearch:" +:+ query) = Ret (Some res) →
     entries res ≠ Some (first :: others)) →
  unresolved query.
Proof.
  intros Hl Hno w.
  unfold resolve_query, run_extract_info, first_entry. unfold_monad.
  rewrite Hl.
  destruct (extract_info ("ytsearch:" +:+ query)) as [[res|]|exn] eqn:He; simpl;
    try exact I.
  destruct (entries res) as [[|first others]|] eqn:Hent; simpl; try exact I.
  exfalso. exact (Hno res first others eq_refl Hent).
Qed.

(** ** [pause], [resume], [skip] and [show_queue] *)

Lemma playing_player ctx w :
  playing ctx w = true →
  ∃ vc p, voice_clients w !! guild_id ctx = Some vc ∧
          vc_player vc = Some p ∧ pl_paused p = false.
Proof.
  unfold playing, is_playing.
  destruct (voice_clients w !! guild_id ctx) as [vc|]; simpl; [|discriminate].
  destruct (vc_player vc) as [p|] eqn:Hpl; [|discriminate].
  destruct (pl_paused p) eqn:Hp; [discriminate|]. intros _. exists vc, p. auto.
Qed.

Lemma pause_playing ctx w :
  playing ctx w = true →
  pause ctx w =
  (emit (Send (guild_id ctx) "⏸ Paused")
     (emit (VcPause (guild_id ctx))
        (set_voice_clients (alter (set_paused true) (guild_id ctx)) w)), Ret tt).
Proof.
  unfold playing, pause, voice_client_of, vc_pause, send. unfold_monad.
  intros ->. reflexivity.
Qed.

(** X11: [pause] followed by [resume], on a voice client that is playing,
    gives back the voice clients exactly as they were (same player, same
    callback, playing again); the queues and the callbacks owed are
    untouched, and "Paused" and "Resumed" are sent. *)
Theorem pause_resume_round_trip (ctx : Context) (w : World) :
  playing ctx w = true →
  let w1 := (pause ctx w).1 in
  let w2 := (resume ctx w1).1 in
  (pause ctx w).2 = Ret tt ∧
  (resume ctx w1).2 = Ret tt ∧
  playing ctx w1 = false ∧
  voice_clients w2 = voice_clients w ∧
  music_queues w2 = music_queues w ∧
  callbacks w2 = callbacks w ∧
  log w2 =
    log w ++ [VcPause (guild_id ctx); Send (guild_id ctx) "⏸ Paused";
              VcResume (guild_id ctx); Send (guild_id ctx) "▶ Resumed"].
Proof.
  intros Hpl. destruct (playing_player _ _ Hpl) as (vc & p & Hvc & Hp & Hpa).
  rewrite (pause_playing _ _ Hpl). simpl.
  unfold resume, voice_client_of, vc_resume, send. unfold_monad. simpl.
  rewrite lookup_alter_eq, Hvc. simpl.
  unfold is_paused, set_paused at 1. simpl. rewrite Hp. simpl.
  split; [reflexivity|]. split; [reflexivity|]. split.
  { unfold playing. simpl. rewrite lookup_alter_eq, Hvc. simpl.
    unfold is_playing. simpl. rewrite Hp. reflexivity. }
  split.
  { rewrite alter_alter_eq. apply alter_id. intros vc' Hvc'.
    rewrite Hvc in Hvc'. injection Hvc' as <-.
    unfold set_paused, with_player. simpl. rewrite Hp. simpl.
    destruct vc as [ch con pl]. simpl in *. subst pl.
    destruct p as [src pa after]. simpl in *. subst pa. reflexivity. }
  split; [reflexivity|]. split; [reflexivity|].
  rewrite <- !app_assoc. reflexivity.
Qed.

(** X12: a paused song cannot be skipped: after [pause] on a playing voice
    client, [skip] only answers "Nothing to skip."; the player stays where
    it is, paused, and no callback is owed for it. *)
Theorem paused_song_is_not_skipped (ctx : Context) (w : World) :
  playing ctx w = true →
  let w1 := (pause ctx w).1 in
  let w2 := (skip ctx w1).1 in
  (skip ctx w1).2 = Ret tt ∧
  log w2 = log w1 ++ [Send (guild_id ctx) "Nothing to skip."] ∧
  voice_clients w2 = voice_clients w1 ∧
  from_option is_paused false (voice_clients w2 !! guild_id ctx) = true ∧
  callbacks w2 = callbacks w.
Proof.
  intros Hpl. destruct (playing_player _ _ Hpl) as (vc & p & Hvc & Hp & Hpa).
  rewrite (pause_playing _ _ Hpl). simpl.
  rewrite skip_when_not_playing.
  - simpl. repeat split.
    rewrite lookup_alter_eq, Hvc. simpl. unfold is_paused. simpl. rewrite Hp. reflexivity.
  - unfold playing. simpl. rewrite lookup_alter_eq, Hvc. simpl.
    unfold is_playing. simpl. rewrite Hp. reflexivity.
Qed.

(** X13: [skip] twice in a row, before the callback of the first is
    delivered: the second finds nothing to skip, so one callback is owed
    for the two, not two. *)
Theorem skip_twice_owes_one_callback (ctx : Context) (w : World) :
  playing ctx w = true →
  let w1 := (skip ctx w).1 in
  let w2 := (skip ctx w1).1 in
  log w2 =
    log w ++ [VcStop (guild_id ctx); Send (guild_id ctx) "⏭ Skipped";
              Send (guild_id ctx) "Nothing to skip."] ∧
  length (callbacks w1) = S (length (callbacks w)) ∧
  callbacks w2 = callbacks w1 ∧
  music_queues w2 = music_queues w.
Proof.
  intros Hpl. destruct (playing_player _ _ Hpl) as (vc & p & Hvc & Hp & Hpa).
  assert (Hskip : skip ctx w =
            (emit (Send (guild_id ctx) "⏭ Skipped")
               (emit (VcStop (guild_id ctx))
                  (set_callbacks (λ cbs, cbs ++ [(pl_after p, None)])
                     (set_voice_clients <[guild_id ctx := with_player None vc]> w))), Ret tt)).
  { unfold skip, voice_client_of, vc_stop, send. unfold_monad.
    rewrite Hvc. simpl. unfold is_playing. rewrite Hp, Hpa. simpl.
    unfold end_player. rewrite Hvc, Hp. reflexivity. }
  rewrite Hskip. simpl. rewrite skip_when_not_playing.
  - simpl. rewrite length_app. simpl. repeat split; [|lia].
    rewrite <- !app_assoc. reflexivity.
  - unfold playing. simpl. rewrite lookup_insert_eq. reflexivity.
Qed.

(** X14: [show_queue] is a read-only snapshot: it sends exactly one
    message and leaves the contents of every queue, the voice clients and
    the callbacks as they were.  The message is "The queue is empty." for
    an empty queue; otherwise it lists one line per queued song, in queue
    order, the song at index [i] on the line numbered [i + 1]. *)
Theorem show_queue_snapshot (ctx : Context) (w : World) :
  let w' := (show_queue ctx w).1 in
  let queue := queue_of (guild_id ctx) w in
  (show_queue ctx w).2 = Ret tt ∧
  (∀ guild, queue_of guild w' = queue_of guild w) ∧
  voice_clients w' = voice_clients w ∧
  callbacks w' = callbacks w ∧
  log w' =
    log w ++ [Send (guild_id ctx)
                (match queue with
                 | [] => "🧺 The queue is empty."
                 | _ :: _ => "📜 **Current queue:**" +:+ newline
                             +:+ String.concat newline (queue_lines queue)
                 end)] ∧
  length (queue_lines queue) = length queue ∧
  ∀ i : nat, queue_lines queue !! i =
             (λ song, pretty (S i) +:+ ". " +:+ title song) <$> queue !! i.
Proof.
  unfold show_queue, send. unfold_monad. rewrite get_guild_queue_eq.
  assert (Hl : length (queue_lines (queue_of (guild_id ctx) w)) =
               length (queue_of (guild_id ctx) w)) by apply length_imap.
  assert (Hi : ∀ i : nat, queue_lines (queue_of (guild_id ctx) w) !! i =
               (λ song, pretty (S i) +:+ ". " +:+ title song) <$>
               queue_of (guild_id ctx) w !! i) by (intros i; apply list_lookup_imap).
  destruct (queue_of (guild_id ctx) w) as [|song rest] eqn:Hq; simpl;
    repeat split; try exact Hl; try exact Hi; intros guild; apply queue_of_touch.
Qed.

(** X15: an exception raised by [play_next_in_queue] in the callback is
    swallowed by [after_playing].  When the next song's answer has an empty
    list of entries, the callback consumes that song, prints the error and
    returns normally: nothing is sent, no stream is started, the rest of
    the queue stays queued and no further callback is owed.  What is
    printed is [str(e)], the text of the exception without its class. *)
Theorem callback_exception_stalls_queue
    (ctx : Context) (w : World) (song : Song) (rest : list Song) (data : Info) :
  connected ctx w = true →
  queue_of (guild_id ctx) w = song :: rest →
  extract_info (url song) = Ret (Some data) →
  entries data = Some [] →
  let w' := (after_playing ctx None w).1 in
  (after_playing ctx None w).2 = Ret tt ∧
  queue_of (guild_id ctx) w' = rest ∧
  log w' =
    log w ++ [Call FromAfterPlaying (guild_id ctx);
              Print "Error in after_playing: list index out of range"] ∧
  voice_clients w' = voice_clients w ∧
  callbacks w' = callbacks w.
Proof.
  intros Hc Hq He Hn. unfold after_playing, print. unfold_monad.
  set (w0 := emit (Call FromAfterPlaying (guild_id ctx)) w).
  rewrite (play_next_source_raises ctx w0 song rest data Hc Hq He Hn). simpl.
  repeat split.
  - unfold queue_of. simpl. rewrite lookup_insert_eq. reflexivity.
  - rewrite <- app_assoc. reflexivity.
Qed.

(** ** The whole queue *)

Lemma deliver_single_callback ctx w :
  callbacks w = [(ctx, None)] →
  let w0 := emit (Call FromAfterPlaying (guild_id ctx)) (set_callbacks (λ _, []) w) in
  (play_next_in_queue ctx w0).2 = Ret tt →
  (deliver_callback w).1 = (play_next_in_queue ctx w0).1.
Proof.
  intros Hcb w0 Hr. unfold deliver_callback. rewrite Hcb.
  unfold after_playing. unfold_monad. fold w0.
  destruct (play_next_in_queue ctx w0) as [w' r]. simpl in Hr. subst r. reflexivity.
Qed.

(** X17: a queue whose songs all resolve is played to its end, in order,
    without any further command: starting from an idle, connected voice
    client with no callback owed, [play_next_in_queue] and then, once per
    song, the end of the player and the delivery of its callback start the
    streams of the songs in queue order, announce each with "Now playing",
    and finish with "Queue ended", the queue empty and nothing playing.
    [play_next_in_queue] is called once per callback. *)
Theorem queue_played_in_order
    (ctx : Context) (w : World) (vc : VoiceClient) (queue : list Song)
    (sources : list AudioSource) :
  voice_clients w !! guild_id ctx = Some vc →
  is_connected vc = true →
  vc_player vc = None →
  callbacks w = [] →
  queue_of (guild_id ctx) w = queue →
  Forall2 (λ song source, resolves_to (url song) source) queue sources →
  let w' := play_out (length queue) (guild_id ctx) (play_next_in_queue ctx w).1 in
  (play_next_in_queue ctx w).2 = Ret tt ∧
  sent_of (log w') =
    sent_of (log w)
    ++ map (λ song, (guild_id ctx, now_playing song)) queue
    ++ [(guild_id ctx, "Queue ended ✅")] ∧
  started_of (log w') =
    started_of (log w) ++ map (λ source, (guild_id ctx, source)) sources ∧
  calls_of (log w') =
    calls_of (log w) ++ replicate (length queue) (FromAfterPlaying, guild_id ctx) ∧
  queue_of (guild_id ctx) w' = [] ∧
  playing ctx w' = false ∧
  callbacks w' = [].
Proof.
  intros Hvc Hc Hp Hcb Hq Hres. revert w vc Hvc Hc Hp Hcb Hq.
  induction Hres as [|song source rest srcs Hsong Hrest IH]; intros w vc Hvc Hc Hp Hcb Hq.
  - assert (Hcon : connected ctx w = true) by (unfold connected; rewrite Hvc; exact Hc).
    rewrite (play_next_empty _ _ Hcon Hq). simpl.
    rewrite sent_of_app, started_of_app, calls_of_app. simpl. rewrite !app_nil_r.
    repeat split; try assumption.
    + rewrite queue_of_emit, queue_of_touch. exact Hq.
    + unfold playing. simpl. rewrite Hvc. simpl. unfold is_playing. rewrite Hp. reflexivity.
  - assert (Hip : is_playing vc = false) by (unfold is_playing; rewrite Hp; reflexivity).
    rewrite (play_next_starts _ _ _ _ _ _ Hvc Hc Hip Hq Hsong).
    cbn [fst snd length play_out].
    set (vc1 := with_player (Some (mkPlayer source false ctx)) vc).
    set (w1 := emit _ (emit _ (set_voice_clients _ (set_music_queues _ w)))).
    set (w2 := end_player (guild_id ctx) None w1).
    assert (Hw2 : w2 = set_callbacks (λ cbs, cbs ++ [(ctx, None)])
                         (set_voice_clients <[guild_id ctx := with_player None vc1]> w1)).
    { unfold w2, end_player.
      assert (H1 : voice_clients w1 !! guild_id ctx = Some vc1) by apply lookup_insert_eq.
      rewrite H1. reflexivity. }
    assert (Hcb2 : callbacks w2 = [(ctx, None)]).
    { rewrite Hw2. simpl. rewrite Hcb. reflexivity. }
    set (w3 := emit (Call FromAfterPlaying (guild_id ctx)) (set_callbacks (λ _, []) w2)).
    assert (Hvc3 : voice_clients w3 !! guild_id ctx = Some (with_player None vc1)).
    { unfold w3. rewrite Hw2. simpl. apply lookup_insert_eq. }
    assert (Hq3 : queue_of (guild_id ctx) w3 = rest).
    { unfold w3. rewrite Hw2. unfold queue_of. simpl. rewrite lookup_insert_eq. reflexivity. }
    assert (Hlog3 : log w3 = log w ++ [VcPlay (guild_id ctx) source;
                                       Send (guild_id ctx) (now_playing song);
                                       Call FromAfterPlaying (guild_id ctx)]).
    { unfold w3. rewrite Hw2. simpl. rewrite <- !app_assoc. reflexivity. }
    destruct (IH w3 (with_player None vc1) Hvc3 Hc eq_refl eq_refl Hq3)
      as (Hr & Hsent & Hstart & Hcalls & Hq' & Hpl' & Hcb').
    rewrite (deliver_single_callback ctx w2 Hcb2 Hr). fold w3.
    split; [reflexivity|].
    rewrite Hsent, Hstart, Hcalls, Hlog3, sent_of_app, started_of_app, calls_of_app.
    simpl. rewrite <- !app_assoc. simpl.
    repeat split; assumption.
Qed.

(** X18: the song that [play] has just queued on an idle guild is consumed
    without a stream when the resolver answers for it, at playback time,
    with an empty list of entries: "Added to queue" is sent, then the
    exception leaves [play_next_in_queue] and [play], and the queue is
    empty. *)
Theorem play_raises_after_adding
    (ctx : Context) (query : string) (w : World) (voice_channel : Z) (data answer : Info) :
  author_voice ctx ≫= vs_channel = Some voice_channel →
  (resolve_query query w).2 = Ret data →
  truthy (py_or (info_webpage_url data) (info_url data)) = true →
  queue_of (guild_id ctx) w = [] →
  playing ctx w = false →
  from_option vc_connected true (voice_clients w !! guild_id ctx) = true →
  extract_info (url (song_of_info data)) = Ret (Some answer) →
  entries answer = Some [] →
  let w' := (play ctx query w).1 in
  (play ctx query w).2 = Raise (mkExn "IndexError" "list index out of range") ∧
  queue_of (guild_id ctx) w' = [] ∧
  sent_of (log w') =
    sent_of (log w)
    ++ [(guild_id ctx, "➕ Added to queue: **" +:+ title (song_of_info data) +:+ "**")] ∧
  started_of (log w') = started_of (log w).
Proof.
  intros Hv Hres Hurl Hq Hpl Hcon He Hn. simpl.
  rewrite (play_resolved_eq _ _ _ _ _ Hv Hres Hurl).
  destruct (join_voice_frame ctx voice_channel w)
    as (_ & Hmq & _ & evs & Hlog & Hs & Hst & _).
  destruct (join_voice_client ctx voice_channel w) as (vc & Hvc & Hp & Hc).
  pose proof (join_voice_playing ctx voice_channel w) as Hpl1.
  set (w1 := (join_voice ctx voice_channel w).1) in *.
  rewrite (queue_of_same _ w w1 Hmq), Hq. simpl.
  set (w2 := emit _ (set_music_queues _ w1)).
  assert (Hpl2 : playing ctx w2 = false) by (rewrite <- Hpl; exact Hpl1).
  rewrite Hpl2.
  set (w3 := emit (Call FromPlay (guild_id ctx)) w2).
  assert (Hc3 : connected ctx w3 = true).
  { unfold connected. change (voice_clients w3) with (voice_clients w1).
    rewrite Hvc. simpl. unfold is_connected. rewrite Hc. exact Hcon. }
  assert (Hq3 : queue_of (guild_id ctx) w3 = [song_of_info data]).
  { unfold w3, w2. rewrite !queue_of_emit, queue_of_set, decide_True by reflexivity.
    reflexivity. }
  rewrite (play_next_source_raises ctx w3 _ _ answer Hc3 Hq3 He Hn). simpl.
  rewrite Hlog, !sent_of_app, !started_of_app, Hs, Hst. simpl. rewrite !app_nil_r.
  repeat split.
  unfold queue_of. simpl. rewrite lookup_insert_eq. reflexivity.
Qed.

(** ** Guilds do not interfere *)

Lemma vc_play_own_guild ctx source w guild :
  guild ≠ guild_id ctx →
  voice_clients (vc_play ctx source w).1 !! guild = voice_clients w !! guild.
Proof.
  intros Hne. unfold vc_play, voice_client_of. unfold_monad. simpl.
  destruct (voice_clients w !! guild_id ctx) as [vc|]; simpl; [|reflexivity].
  destruct (is_connected vc); simpl; [|reflexivity].
  destruct (is_playing vc); simpl; [reflexivity|].
  apply lookup_insert_ne. congruence.
Qed.

Lemma play_next_rounds_other_client (n : nat) ctx w guild :
  guild ≠ guild_id ctx →
  voice_clients (play_next_rounds n ctx w).1 !! guild = voice_clients w !! guild.
Proof.
  intros Hne. revert w. induction n as [|n IH]; intros w; cbn [play_next_rounds];
    [reflexivity|].
  destruct (connected ctx w) eqn:Hc;
    [|rewrite (body_not_connected _ _ _ Hc); reflexivity].
  destruct (queue_of (guild_id ctx) w) as [|song rest] eqn:Hq.
  - rewrite (body_empty _ _ _ Hc Hq). reflexivity.
  - rewrite (body_cons _ _ _ _ _ Hc Hq).
    set (w1 := set_music_queues <[guild_id ctx := rest]> w).
    destruct (create_audio_source_frame (url song) w1) as (evs & Hw & _).
    destruct (create_audio_source (url song) w1) as [w2 [[source|]|exn]];
      simpl in Hw; subst w2.
    + pose proof (vc_play_own_guild ctx source (append_log evs w1) guild Hne) as Hvc.
      unfold_monad. unfold send. unfold_monad.
      destruct (vc_play ctx source (append_log evs w1)) as [w3 [[]|exn]]; exact Hvc.
    + set (w3 := emit _ (emit _ _)). rewrite (IH w3). reflexivity.
    + reflexivity.
Qed.

(** X19: [play_next_in_queue] for one guild leaves every other guild alone:
    its queue and its voice client (so its player) are as they were. *)
Theorem play_next_other_guilds (ctx : Context) (w : World) (guild : Z) :
  guild ≠ guild_id ctx →
  queue_of guild (play_next_in_queue ctx w).1 = queue_of guild w ∧
  voice_clients (play_next_in_queue ctx w).1 !! guild = voice_clients w !! guild.
Proof.
  intros Hne. split.
  - destruct (play_next_drop ctx w) as [k Hk]. rewrite Hk, decide_False by assumption.
    reflexivity.
  - unfold play_next_in_queue. apply play_next_rounds_other_client, Hne.
Qed.

(** ** One stream at a time *)

Lemma play_unresolved_frame ctx query w voice_channel :
  author_voice ctx ≫= vs_channel = Some voice_channel →
  match (resolve_query query w).2 with
  | Raise _ => True
  | Ret data => truthy (py_or (info_webpage_url data) (info_url data)) = false
  end →
  voice_clients (play ctx query w).1 = voice_clients (join_voice ctx voice_channel w).1 ∧
  ∃ evs, log (play ctx query w).1 = log (join_voice ctx voice_channel w).1 ++ evs ∧
         calls_of evs = [] ∧ started_of evs = [].
Proof.
  intros Hv Hun. unfold play. rewrite Hv.
  destruct (join_voice_frame ctx voice_channel w) as (Hr & _).
  unfold_monad. unfold send, print. unfold_monad.
  destruct (join_voice ctx voice_channel w) as [w1 r1]. simpl in *. subst r1.
  rewrite (resolve_query_result query w w1) in Hun.
  pose proof (resolve_query_state query w1) as Hst1.
  destruct (resolve_query query w1) as [w2 [data|exn]]; simpl in *; subst w2.
  - rewrite Hun. simpl. split; [reflexivity|]. eexists. repeat split.
  - simpl. split; [reflexivity|]. eexists. rewrite <- app_assoc. repeat split.
Qed.

Lemma join_voice_player ctx voice_channel w :
  player_of ctx (join_voice ctx voice_channel w).1 = player_of ctx w.
Proof.
  destruct (join_voice_client ctx voice_channel w) as (vc & Hvc & Hp & _).
  unfold player_of. rewrite Hvc. exact Hp.
Qed.

(** C4, amended: while the voice client of the guild is playing (it has a
    player that is not paused), no second stream is started and the
    running player stays in place.  A [play] command, whatever its query,
    does not call [play_next_in_queue]; and a call of [play_next_in_queue]
    that is made then, or that comes back then from its [await] of
    [create_audio_source] (with whatever result), starts no stream: the
    voice client refuses it. *)
Theorem no_second_stream_while_playing (ctx : Context) (w : World) :
  playing ctx w = true →
  (∀ query,
     let w' := (play ctx query w).1 in
     calls_of (log w') = calls_of (log w) ∧
     started_of (log w') = started_of (log w) ∧
     player_of ctx w' = player_of ctx w) ∧
  (let w' := (play_next_in_queue ctx w).1 in
   started_of (log w') = started_of (log w) ∧
   player_of ctx w' = player_of ctx w) ∧
  (∀ (n : nat) song source,
     let w' := (play_next_resume (play_next_rounds n) ctx song source w).1 in
     started_of (log w') = started_of (log w) ∧
     player_of ctx w' = player_of ctx w).
Proof.
  intros Hpl. split; [|split].
  - intros query. simpl.
    destruct (author_voice ctx ≫= vs_channel) as [voice_channel|] eqn:Hv.
    + destruct (join_voice_frame ctx voice_channel w)
        as (_ & _ & _ & evs & Hlog & _ & Hst & Hca).
      pose proof (join_voice_player ctx voice_channel w) as Hp.
      assert (Hun : ∀ w',
                voice_clients w' = voice_clients (join_voice ctx voice_channel w).1 →
                (∃ evs', log w' = log (join_voice ctx voice_channel w).1 ++ evs' ∧
                         calls_of evs' = [] ∧ started_of evs' = []) →
                calls_of (log w') = calls_of (log w) ∧
                started_of (log w') = started_of (log w) ∧
                player_of ctx w' = player_of ctx w).
      { intros w' Hvc (evs' & Hlog' & Hca' & Hst').
        rewrite Hlog', Hlog, !calls_of_app, !started_of_app, Hca, Hca', Hst, Hst'.
        rewrite !app_nil_r. repeat split.
        rewrite <- Hp. unfold player_of. rewrite Hvc. reflexivity. }
      destruct ((resolve_query query w).2) as [data|exn] eqn:Hres.
      * destruct (truthy (py_or (info_webpage_url data) (info_url data))) eqn:Hurl.
        -- rewrite (play_resolved_eq _ _ _ _ _ Hv Hres Hurl).
           set (w1 := (join_voice ctx voice_channel w).1) in *.
           set (w2 := emit _ (set_music_queues _ w1)).
           assert (Hpl2 : playing ctx w2 = true).
           { rewrite <- Hpl. exact (join_voice_playing ctx voice_channel w). }
           rewrite Hpl2. apply Hun; [reflexivity|].
           eexists. repeat split.
        -- apply Hun; apply (play_unresolved_frame _ _ _ _ Hv); rewrite Hres; exact Hurl.
      * apply Hun; apply (play_unresolved_frame _ _ _ _ Hv); rewrite Hres; exact I.
    + unfold play. rewrite Hv. simpl.
      rewrite calls_of_app, started_of_app. simpl. rewrite !app_nil_r. repeat split.
  - simpl. destruct (play_next_while_playing ctx w Hpl) as [Hs Hv].
    split; [exact Hs|]. unfold player_of. rewrite Hv. reflexivity.
  - intros n song source. simpl.
    destruct (play_next_resume_while_playing n ctx song source w Hpl) as [Hs Hv].
    split; [exact Hs|]. unfold player_of. rewrite Hv. reflexivity.
Qed.

End Bot.

(** * Examples *)

Import Example.



(** C3 at an idle guild with an empty queue. *)
Lemma play_next_on_empty_queue_witness :
  connected caller (idle []) = true ∧
  queue_of (guild_id caller) (idle []) = [] ∧
  let w' := (play_next_in_queue resolver caller (idle [])).1 in
  log w' = [Send guild "Queue ended ✅"] ∧
  started_of (log w') = [] ∧
  playing caller w' = false.
Proof.
  assert (Hc : connected caller (idle []) = true) by reflexivity.
  assert (Hq : queue_of (guild_id caller) (idle []) = []) by reflexivity.
  split; [exact Hc|]. split; [exact Hq|].
  destruct (play_next_on_empty_queue resolver caller (idle []) Hc Hq)
    as (_ & Hlog & Hst & _ & _ & Hpl & _).
  split; [exact Hlog|]. split; [exact Hst | exact Hpl].
Defined.

(** C3 as stated fails without a voice client: "Queue ended" is not sent. *)
Lemma play_next_on_empty_queue_unconnected :
  queue_of guild (unconnected []) = [] ∧
  sent_of (log (play_next_in_queue resolver caller (unconnected [])).1) = [] ∧
  ¬ In (Send guild "Queue ended ✅")
      (log (play_next_in_queue resolver caller (unconnected [])).1).
Proof.
  split; [reflexivity|]. split; [reflexivity|]. intros [].
Qed.

(** C5 at a guild that is playing, with one more song queued. *)
Lemma skip_advances_once_witness :
  voice_clients (streaming [cat1]) !! guild_id caller = Some playing_client ∧
  let w1 := (skip caller (streaming [cat1])).1 in
  let w2 := (deliver_callback resolver w1).1 in
  log w1 = [VcStop guild; Send guild "⏭ Skipped"] ∧
  callbacks w1 = [(caller, None)] ∧
  (∃ k : nat, calls_of (log w2) = (FromAfterPlaying, guild) :: replicate k (FromRetry, guild)) ∧
  callbacks w2 = [].
Proof.
  assert (Hvc : voice_clients (streaming [cat1]) !! guild_id caller = Some playing_client)
    by reflexivity.
  split; [exact Hvc|].
  destruct (skip_advances_once resolver caller (streaming [cat1]) playing_client
              (mkPlayer (FFmpegPCMAudio "stream:cat1") false caller)
              Hvc eq_refl eq_refl eq_refl eq_refl)
    as (_ & Hlog & _ & _ & Hcb & _ & Hcalls & Hcb2).
  split; [exact Hlog|]. split; [exact Hcb|]. split; [exact Hcalls | exact Hcb2].
Defined.

(** C6 as stated fails: the queue survives [leave]. *)
Lemma leave_does_not_clear_queue :
  queue_of guild (leave caller (streaming [cat1])).1 = [cat1] ∧
  queue_of guild (leave caller (streaming [cat1])).1 ≠ [].
Proof.
  split; [reflexivity | discriminate].
Qed.

(** C7 at a caller outside every voice channel. *)
Lemma play_outside_voice_channel_witness :
  author_voice outsider ≫= vs_channel = None ∧
  let w' := (play resolver outsider "cats" (idle [cat1])).1 in
  log w' = [Send guild "You need to be in a voice channel first!"] ∧
  music_queues w' = music_queues (idle [cat1]) ∧
  voice_clients w' = voice_clients (idle [cat1]).
Proof.
  assert (Hv : author_voice outsider ≫= vs_channel = None) by reflexivity.
  split; [exact Hv|].
  destruct (play_outside_voice_channel resolver outsider "cats" (idle [cat1]) Hv)
    as (_ & Hlog & Hmq & Hvc & _).
  split; [exact Hlog|]. split; [exact Hmq | exact Hvc].
Defined.


(** C9 at a search without results. *)
Lemma play_unresolved_witness :
  unresolved resolver "nothing" ∧
  let w' := (play resolver caller "nothing" (idle [cat1])).1 in
  music_queues w' = music_queues (idle [cat1]) ∧
  sent_of (log w') = [(guild, "❌ Something went wrong while searching/downloading.")] ∧
  calls_of (log w') = [].
Proof.
  assert (Hun : unresolved resolver "nothing") by (intros w; exact I).
  split; [exact Hun|].
  destruct (play_unresolved resolver caller "nothing" (idle [cat1]) Hun)
    as (_ & Hmq & Hs & Hca & _).
  split; [exact Hmq|]. split; [exact Hs | exact Hca].
Defined.

(** C10 at a guild without voice client. *)
Lemma play_next_without_voice_client_witness :
  connected caller (unconnected [cat1]) = false ∧
  play_next_in_queue resolver caller (unconnected [cat1]) = (unconnected [cat1], Ret tt).
Proof.
  assert (Hc : connected caller (unconnected [cat1]) = false) by reflexivity.
  split; [exact Hc|].
  exact (play_next_without_voice_client resolver caller (unconnected [cat1]) Hc).
Defined.

(** A queue of a song that resolves and one that does not: the first is
    played; when its player ends, the callback reports the second and the
    end of the queue. *)
Example queue_played_to_the_end :
  let w1 := (play_next_in_queue resolver caller (idle [cat1; gone1])).1 in
  let w2 := (deliver_callback resolver (end_player guild None w1)).1 in
  sent_of (log w1) = [(guild, now_playing cat1)] ∧
  started_of (log w1) = [(guild, FFmpegPCMAudio "stream:cat1")] ∧
  sent_of (log w2) =
    [(guild, now_playing cat1); (guild, could_not_play gone1); (guild, "Queue ended ✅")] ∧
  queue_of guild w2 = [] ∧
  playing caller w2 = false.
Proof. repeat split. Qed.

(** X2 at the page of a video. *)
Lemma create_audio_source_sound_witness :
  (create_audio_source resolver "page:cat1" (idle [])).2 =
    Ret (Some (FFmpegPCMAudio "stream:cat1")) ∧
  ∃ data stream,
    resolver "page:cat1" = Ret (Some data) ∧
    info_url (selected_info data) = Some stream ∧
    stream ≠ "" ∧
    FFmpegPCMAudio "stream:cat1" = FFmpegPCMAudio stream.
Proof.
  assert (H : (create_audio_source resolver "page:cat1" (idle [])).2 =
              Ret (Some (FFmpegPCMAudio "stream:cat1"))) by reflexivity.
  split; [exact H|].
  destruct (create_audio_source_sound resolver _ _ _ H) as (data & stream & H1 & H2 & H3 & H4 & _).
  exists data, stream. auto.
Defined.


(** X7 at a guild that is playing. *)
Lemma play_enqueues_then_advances_witness :
  author_voice caller ≫= vs_channel = Some channel ∧
  playing caller (streaming [gone1]) = true ∧
  let w' := (play resolver caller "cats" (streaming [gone1])).1 in
  queue_of guild w' = [gone1; cat1] ∧
  calls_of (log w') = [] ∧
  started_of (log w') = [].
Proof.
  assert (Hv : author_voice caller ≫= vs_channel = Some channel) by reflexivity.
  assert (Hres : (resolve_query resolver "cats" (streaming [gone1])).2 = Ret (video "cat1"))
    by reflexivity.
  assert (Hurl : truthy (py_or (info_webpage_url (video "cat1")) (info_url (video "cat1"))) = true)
    by reflexivity.
  split; [exact Hv|]. split; [reflexivity|].
  destruct (play_enqueues_then_advances resolver caller "cats" (streaming [gone1])
              channel (video "cat1") Hv Hres Hurl) as (_ & H).
  change (playing caller (streaming [gone1])) with true in H.
  destruct H as (_ & Hq & _ & Hca & Hst).
  split; [exact Hq|]. split; [exact Hca | exact Hst].
Defined.

(** X8 at a queue of one song and a search that finds another. *)
Lemma play_keeps_nonempty_urls_witness :
  nonempty_urls (idle [cat1]) ∧
  nonempty_urls (play resolver caller "cats" (idle [cat1])).1.
Proof.
  assert (H : nonempty_urls (idle [cat1])).
  { intros g. unfold queue_of, idle. simpl.
    destruct (decide (g = guild)) as [->|Hne].
    - rewrite lookup_singleton_eq. repeat constructor. discriminate.
    - rewrite lookup_singleton_ne by congruence. constructor. }
  split; [exact H|].
  exact (play_keeps_nonempty_urls resolver caller "cats" (idle [cat1]) H).
Defined.

(** X9 at an idle guild with an empty queue. *)
Lemma play_on_idle_guild_starts_witness :
  author_voice caller ≫= vs_channel = Some channel ∧
  queue_of (guild_id caller) (idle []) = [] ∧
  let w' := (play resolver caller "cats" (idle [])).1 in
  queue_of guild w' = [] ∧
  sent_of (log w') = [(guild, "➕ Added to queue: **cat1**"); (guild, now_playing cat1)] ∧
  started_of (log w') = [(guild, FFmpegPCMAudio "stream:cat1")].
Proof.
  assert (Hv : author_voice caller ≫= vs_channel = Some channel) by reflexivity.
  assert (Hq : queue_of (guild_id caller) (idle []) = []) by reflexivity.
  assert (Hr : resolves_to resolver (url (song_of_info (video "cat1")))
                 (FFmpegPCMAudio "stream:cat1")) by (intros w; reflexivity).
  split; [exact Hv|]. split; [exact Hq|].
  destruct (play_on_idle_guild_starts resolver caller "cats" (idle []) channel
              (video "cat1") (FFmpegPCMAudio "stream:cat1")
              Hv eq_refl eq_refl Hq eq_refl eq_refl Hr) as (_ & Hq' & Hs & Hst & _).
  split; [exact Hq'|]. split; [exact Hs | exact Hst].
Defined.

(** X10 at a search that finds nothing. *)
Lemma search_needs_entries_witness :
  is_link "nothing" = false ∧ unresolved resolver "nothing".
Proof.
  assert (Hl : is_link "nothing" = false) by reflexivity.
  split; [exact Hl|].
  apply (search_needs_entries resolver "nothing" Hl).
  intros res first others [= <-]. discriminate.
Defined.

(** X11, X12 and X13 at a guild that is playing. *)
Lemma pause_resume_round_trip_witness :
  playing caller (streaming [cat1]) = true ∧
  let w1 := (pause caller (streaming [cat1])).1 in
  let w2 := (resume caller w1).1 in
  playing caller w1 = false ∧
  voice_clients w2 = voice_clients (streaming [cat1]) ∧
  log w2 = [VcPause guild; Send guild "⏸ Paused"; VcResume guild; Send guild "▶ Resumed"].
Proof.
  assert (Hp : playing caller (streaming [cat1]) = true) by reflexivity.
  split; [exact Hp|].
  destruct (pause_resume_round_trip caller (streaming [cat1]) Hp)
    as (_ & _ & Hp1 & Hvc & _ & _ & Hlog).
  split; [exact Hp1|]. split; [exact Hvc | exact Hlog].
Defined.

Lemma paused_song_is_not_skipped_witness :
  playing caller (streaming [cat1]) = true ∧
  let w1 := (pause caller (streaming [cat1])).1 in
  let w2 := (skip caller w1).1 in
  log w2 = [VcPause guild; Send guild "⏸ Paused"; Send guild "Nothing to skip."] ∧
  callbacks w2 = [].
Proof.
  assert (Hp : playing caller (streaming [cat1]) = true) by reflexivity.
  split; [exact Hp|].
  destruct (paused_song_is_not_skipped caller (streaming [cat1]) Hp)
    as (_ & Hlog & _ & _ & Hcb).
  split; [exact Hlog | exact Hcb].
Defined.

Lemma skip_twice_owes_one_callback_witness :
  playing caller (streaming [cat1]) = true ∧
  let w1 := (skip caller (streaming [cat1])).1 in
  let w2 := (skip caller w1).1 in
  log w2 = [VcStop guild; Send guild "⏭ Skipped"; Send guild "Nothing to skip."] ∧
  length (callbacks w2) = 1%nat.
Proof.
  assert (Hp : playing caller (streaming [cat1]) = true) by reflexivity.
  split; [exact Hp|].
  destruct (skip_twice_owes_one_callback caller (streaming [cat1]) Hp)
    as (Hlog & Hlen & Hcb & _).
  split; [exact Hlog|]. simpl. rewrite Hcb. exact Hlen.
Defined.

(** X15 at a queue whose first song's page has been emptied. *)
Lemma callback_exception_stalls_queue_witness :
  connected caller (idle [emptied; cat1]) = true ∧
  let w' := (after_playing resolver caller None (idle [emptied; cat1])).1 in
  (after_playing resolver caller None (idle [emptied; cat1])).2 = Ret tt ∧
  queue_of guild w' = [cat1] ∧
  log w' = [Call FromAfterPlaying guild;
            Print "Error in after_playing: list index out of range"].
Proof.
  assert (Hc : connected caller (idle [emptied; cat1]) = true) by reflexivity.
  split; [exact Hc|].
  destruct (callback_exception_stalls_queue resolver caller (idle [emptied; cat1])
              emptied [cat1] (results []) Hc eq_refl eq_refl eq_refl)
    as (Hr & Hq & Hlog & _).
  split; [exact Hr|]. split; [exact Hq | exact Hlog].
Defined.

(** X16 at a guild that is playing, with one song queued. *)
Lemma leave_then_callback_keeps_queues_witness :
  voice_clients (streaming [cat1]) !! guild_id caller = Some playing_client ∧
  music_queues (deliver_callback resolver (leave caller (streaming [cat1])).1).1 =
    music_queues (streaming [cat1]).
Proof.
  assert (Hvc : voice_clients (streaming [cat1]) !! guild_id caller = Some playing_client)
    by reflexivity.
  split; [exact Hvc|].
  apply (leave_then_callback_keeps_queues resolver caller (streaming [cat1])
           playing_client Hvc eq_refl).
  intros p [= <-]. reflexivity.
Defined.

(** X17 at a queue of twice the same song. *)
Lemma queue_played_in_order_witness :
  voice_clients (idle [cat1; cat1]) !! guild_id caller = Some idle_client ∧
  let w' := play_out resolver 2 guild (play_next_in_queue resolver caller (idle [cat1; cat1])).1 in
  sent_of (log w') =
    [(guild, now_playing cat1); (guild, now_playing cat1); (guild, "Queue ended ✅")] ∧
  started_of (log w') =
    [(guild, FFmpegPCMAudio "stream:cat1"); (guild, FFmpegPCMAudio "stream:cat1")] ∧
  queue_of guild w' = [].
Proof.
  assert (Hvc : voice_clients (idle [cat1; cat1]) !! guild_id caller = Some idle_client)
    by reflexivity.
  assert (Hr : Forall2 (λ song source, resolves_to resolver (url song) source)
                 [cat1; cat1] [FFmpegPCMAudio "stream:cat1"; FFmpegPCMAudio "stream:cat1"]).
  { repeat constructor; intros w; reflexivity. }
  split; [exact Hvc|].
  destruct (queue_played_in_order resolver caller (idle [cat1; cat1]) idle_client
              [cat1; cat1] _ Hvc eq_refl eq_refl eq_refl eq_refl Hr)
    as (_ & Hs & Hst & _ & Hq & _).
  split; [exact Hs|]. split; [exact Hst | exact Hq].
Defined.

(** X18 at a link whose page has been emptied. *)
Lemma play_raises_after_adding_witness :
  author_voice caller ≫= vs_channel = Some channel ∧
  let w' := (play stale_resolver caller "https://stale" (idle [])).1 in
  (play stale_resolver caller "https://stale" (idle [])).2 =
    Raise (mkExn "IndexError" "list index out of range") ∧
  queue_of guild w' = [] ∧
  sent_of (log w') = [(guild, "➕ Added to queue: **Stale**")].
Proof.
  assert (Hv : author_voice caller ≫= vs_channel = Some channel) by reflexivity.
  split; [exact Hv|].
  destruct (play_raises_after_adding stale_resolver caller "https://stale" (idle []) channel
              (mkInfo None None (Some "https://emptied") (Some "Stale")) (results [])
              Hv eq_refl eq_refl eq_refl eq_refl eq_refl eq_refl eq_refl)
    as (Hr & Hq & Hs & _).
  split; [exact Hr|]. split; [exact Hq | exact Hs].
Defined.

(** X19 and X20 at a second guild. *)
Lemma play_next_other_guilds_witness :
  other_guild ≠ guild_id caller ∧
  queue_of other_guild (play_next_in_queue resolver caller (idle [cat1])).1 =
    queue_of other_guild (idle [cat1]).
Proof.
  assert (Hne : other_guild ≠ guild_id caller) by discriminate.
  split; [exact Hne|].
  exact (proj1 (play_next_other_guilds resolver caller (idle [cat1]) other_guild Hne)).
Defined.

Lemma run_queue_ops_other_guild_witness :
  guild ≠ other_guild ∧
  queue_of other_guild (run_queue_ops guild [Enqueue cat1; Dequeue; Enqueue gone1] (idle [cat1])).1 =
    queue_of other_guild (idle [cat1]).
Proof.
  assert (Hne : guild ≠ other_guild) by discriminate.
  split; [exact Hne|].
  exact (run_queue_ops_other_guild guild other_guild _ (idle [cat1]) Hne).
Defined.

(** C4 at a guild that is playing, with one song queued. *)
Lemma no_second_stream_while_playing_witness :
  playing caller (streaming [cat1]) = true ∧
  (let w' := (play resolver caller "cats" (streaming [cat1])).1 in
   calls_of (log w') = [] ∧ started_of (log w') = [] ∧
   player_of caller w' = player_of caller (streaming [cat1])) ∧
  (let w' := (play_next_in_queue resolver caller (streaming [cat1])).1 in
   started_of (log w') = [] ∧
   player_of caller w' = player_of caller (streaming [cat1])) ∧
  (let w' := (play_next_resume (play_next_rounds resolver limit) caller cat1
                (Some (FFmpegPCMAudio "stream:cat1")) (streaming [])).1 in
   started_of (log w') = [] ∧
   player_of caller w' = player_of caller (streaming [])).
Proof.
  assert (Hp : playing caller (streaming [cat1]) = true) by reflexivity.
  assert (Hp0 : playing caller (streaming []) = true) by reflexivity.
  split; [exact Hp|].
  destruct (no_second_stream_while_playing resolver caller (streaming [cat1]) Hp)
    as (Hplay & Hnext & _).
  destruct (no_second_stream_while_playing resolver caller (streaming []) Hp0)
    as (_ & _ & Hresume).
  split; [exact (Hplay "cats")|]. split; [exact Hnext|].
  exact (Hresume limit cat1 (Some (FFmpegPCMAudio "stream:cat1"))).
Defined.

(** C4 as stated fails while the stream is paused: the voice client still
    holds the player of the stream, which has not completed, yet [play]
    calls [play_next_in_queue] and a second stream is started in its
    place; no callback is owed for the first. *)
Lemma second_stream_while_paused :
  player_of caller (paused []) =
    Some (mkPlayer (FFmpegPCMAudio "stream:one") true caller) ∧
  let w' := (play resolver caller "cats" (paused [])).1 in
  calls_of (log w') = [(FromPlay, guild)] ∧
  started_of (log w') = [(guild, FFmpegPCMAudio "stream:cat1")] ∧
  player_of caller w' = Some (mkPlayer (FFmpegPCMAudio "stream:cat1") false caller) ∧
  callbacks w' = [].
Proof.
  repeat split.
Qed.

(** C5 as stated fails on a paused stream: the voice client holds the
    player of the stream, but [skip] stops nothing and only answers; no
    callback is owed, so [play_next_in_queue] is not called. *)
Lemma skip_on_paused_stream :
  player_of caller (paused [cat1]) =
    Some (mkPlayer (FFmpegPCMAudio "stream:one") true caller) ∧
  let w1 := (skip caller (paused [cat1])).1 in
  let w2 := (deliver_callback resolver w1).1 in
  log w1 = [Send guild "Nothing to skip."] ∧
  voice_clients w1 = voice_clients (paused [cat1]) ∧
  callbacks w1 = [] ∧
  calls_of (log w2) = [].
Proof.
  repeat split.
Qed.
